(** * Home page of the movie recommendation client

    A shallow embedding of [frontend/src/pages/Home.jsx]: the favorites
    store, the catalog loader, the recommendation fetcher and the
    filter/sort engine, together with the parts of the JavaScript
    platform they call (numbers, truthiness, [Array.prototype.sort],
    [JSON.parse], [JSON.stringify]).

    Conventions.
    - A JavaScript number is an IEEE 754 binary64 value: [spec_float] at
      precision 53 and maximal exponent 1024.
    - A JavaScript string is held as a [string] of 8-bit units: each
      UTF-16 code unit below 128 is one unit, a larger one is the two or
      three bytes [code_unit_bytes] gives it.  This keeps concatenation,
      the substring relation and the code-unit order of strings.
    - Calls to [console.log] and [console.error] are left out: they have
      no effect on the component state. *)

From Stdlib Require Import ZArith List String Ascii Bool Lia SpecFloat.
From Stdlib Require Import DecimalString Sorted Permutation.
From Stdlib Require DecimalPos.
Import ListNotations.

Set Warnings "-register-all".

Local Open Scope string_scope.
Local Open Scope Z_scope.

(* ================================================================= *)
(** * Part I: definitions *)
(* ================================================================= *)

(** ** JavaScript numbers *)

Definition prec : Z := 53.
Definition emax : Z := 1024.

Definition number : Type := spec_float.

(** A [spec_float] is a number when its mantissa and exponent are those
    of a binary64 value. *)
Definition valid_number (x : number) : bool := valid_binary prec emax x.

Definition zero : number := S754_zero false.

Definition number_of_Z (z : Z) : number := binary_normalize prec emax z 0 false.

Definition is_nan (x : number) : bool :=
  match x with S754_nan => true | _ => false end.

(** [x - y] *)
Definition number_sub (x y : number) : number := SFsub prec emax x y.

(** [x < 0] and [x > 0]; both are false on NaN and on the two zeros. *)
Definition is_negative (x : number) : bool := SFltb x zero.
Definition is_positive (x : number) : bool := SFltb zero x.

(** ToBoolean on a number: the zeros and NaN are falsy. *)
Definition number_truthy (x : number) : bool :=
  match x with
  | S754_zero _ | S754_nan => false
  | _ => true
  end.

(** [x || 0] for an optional numeric field ([undefined] and [null] are
    falsy, and so are [0], [-0] and [NaN]). *)
Definition or_zero (x : option number) : number :=
  match x with
  | Some n => if number_truthy n then n else zero
  | None => zero
  end.

(** The value of a finite number is an integer: the mantissa has no bit
    below the unit. *)
Definition is_integer (x : number) : bool :=
  match x with
  | S754_zero _ => true
  | S754_finite _ m e => (0 <=? e) || (Zpos m mod 2 ^ (- e) =? 0)
  | _ => false
  end.

(** ** Primitive values that reach [fetchRecommended] *)

(** The argument is [movie.id] of a card or the [selectedMovieId] state,
    whose first value is [null]: a number, a boolean, [null] or
    [undefined].  Strings and objects are not covered. *)

Inductive value : Type :=
| VUndefined
| VNull
| VBool (b : bool)
| VNumber (n : number).

(** ToBoolean *)
Definition truthy (v : value) : bool :=
  match v with
  | VUndefined | VNull => false
  | VBool b => b
  | VNumber n => number_truthy n
  end.

(** ToNumber *)
Definition ToNumber (v : value) : number :=
  match v with
  | VUndefined => S754_nan
  | VNull => zero
  | VBool b => if b then number_of_Z 1 else zero
  | VNumber n => n
  end.

(** The global [isNaN]. *)
Definition isNaN (v : value) : bool := is_nan (ToNumber v).

(** "movieId is a positive integer", the precondition as the
    specification words it. *)
Definition positive_integer (v : value) : bool :=
  match v with
  | VNumber n => is_positive n && is_integer n
  | _ => false
  end.

(** ** Strings *)

(** [s || t] on an optional string: the empty string is falsy. *)
Definition string_truthy (s : option string) : bool :=
  match s with
  | Some (String _ _) => true
  | _ => false
  end.

Definition lower_ascii (c : ascii) : ascii :=
  let n := N_of_ascii c in
  if ((65 <=? n) && (n <=? 90))%N then ascii_of_N (n + 32) else c.

(** The folding of the ASCII letters [A]-[Z].  It is what
    [String.prototype.toLowerCase] does on ASCII text, and it decides the
    same as the full method when the lowered text is searched for a word
    of ASCII letters other than [i] and [k] (no character outside ASCII
    lower-cases to one of the others): the test of [fetchRecommended] for
    ['tmdb'].  Its other test, for ['no local movies match'], leaves the
    message the same either way.  The search of the catalog uses the full
    method, [String_toLowerCase] below. *)
Fixpoint toLowerCase (s : string) : string :=
  match s with
  | EmptyString => EmptyString
  | String c s' => String (lower_ascii c) (toLowerCase s')
  end.

(** [s.includes(sub)] *)
Fixpoint includes (s sub : string) : bool :=
  if prefix sub s then true
  else match s with
       | EmptyString => false
       | String _ s' => includes s' sub
       end.

(** ** [Array.prototype.sort] *)

(** ECMA-262 requires the sort to be stable.  It is modelled by the
    stable insertion of the elements, right to left, each placed after
    the elements the comparison puts before it. *)
Section Sort.
Context {A : Type}.
Variable comparefn : A -> A -> number.

(** The result of the comparison, NaN read as [+0]. *)
Definition SortCompare (x y : A) : number :=
  let v := comparefn x y in
  if is_nan v then zero else v.

Fixpoint sort_insert (x : A) (l : list A) : list A :=
  match l with
  | [] => [x]
  | y :: l' =>
      if is_positive (SortCompare x y) then y :: sort_insert x l'
      else x :: l
  end.

Definition sort (l : list A) : list A := fold_right sort_insert [] l.
End Sort.

(** The comparison [sort()] uses without an argument, on strings: by
    code units. *)
Definition default_compare (x y : string) : number :=
  if String.ltb x y then number_of_Z (-1)
  else if String.ltb y x then number_of_Z 1
  else zero.

(** ** JSON values *)

(** The fields of an object are kept in the order of the text; when a
    name is repeated JavaScript keeps the later field. *)

Inductive json : Type :=
| JNull
| JBool (b : bool)
| JNumber (n : number)
| JString (s : string)
| JArray (items : list json)
| JObject (fields : list (string * json)).

Definition Array_isArray (d : json) : bool :=
  match d with JArray _ => true | _ => false end.

(** [Array.isArray(d) ? d : []] *)
Definition array_or_empty (d : json) : list json :=
  match d with JArray items => items | _ => [] end.

(** Outcome of an operation that can throw. *)
Inductive exn : Type := SyntaxError.

Inductive completion (A : Type) : Type :=
| Normal (a : A)
| Throw (e : exn).
Arguments Normal {A} a.
Arguments Throw {A} e.

(** ** [JSON.parse] *)

Inductive token : Type :=
| TLBrace | TRBrace | TLBracket | TRBracket | TColon | TComma
| TString (s : string)
| TNumber (literal : list ascii)
| TTrue | TFalse | TNull.

(** The bytes standing for one UTF-16 code unit. *)
Definition code_unit_bytes (u : N) : list ascii :=
  (if u <? 128 then [ascii_of_N u]
   else if u <? 2048 then [ascii_of_N (192 + u / 64); ascii_of_N (128 + u mod 64)]
   else [ascii_of_N (224 + u / 4096); ascii_of_N (128 + (u / 64) mod 64);
         ascii_of_N (128 + u mod 64)])%N.

Definition hex_digit (c : ascii) : option N :=
  let n := N_of_ascii c in
  (if (48 <=? n) && (n <=? 57) then Some (n - 48)
   else if (65 <=? n) && (n <=? 70) then Some (n - 55)
   else if (97 <=? n) && (n <=? 102) then Some (n - 87)
   else None)%N.

Definition is_digit (c : ascii) : bool :=
  let n := N_of_ascii c in ((48 <=? n) && (n <=? 57))%N.

Definition is_number_char (c : ascii) : bool :=
  is_digit c ||
  match c with
  | "-"%char | "+"%char | "."%char | "e"%char | "E"%char => true
  | _ => false
  end.

(** What the scanner is in the middle of.  Accumulated characters are
    kept in reverse. *)
Inductive mode : Type :=
| MIdle
| MString (acc : list ascii)
| MEscape (acc : list ascii)
| MUnicode (acc : list ascii) (code : N) (remaining : nat)
| MNumber (acc : list ascii)
| MLiteral (rest : list ascii) (t : token).

Definition string_of_rev (acc : list ascii) : string :=
  string_of_list_ascii (rev acc).

Definition scan_idle (c : ascii) (toks : list token) : option (mode * list token) :=
  match c with
  | " "%char | "009"%char | "010"%char | "013"%char => Some (MIdle, toks)
  | "{"%char => Some (MIdle, TLBrace :: toks)
  | "}"%char => Some (MIdle, TRBrace :: toks)
  | "["%char => Some (MIdle, TLBracket :: toks)
  | "]"%char => Some (MIdle, TRBracket :: toks)
  | ":"%char => Some (MIdle, TColon :: toks)
  | ","%char => Some (MIdle, TComma :: toks)
  | "034"%char => Some (MString [], toks)
  | "t"%char => Some (MLiteral (list_ascii_of_string "rue") TTrue, toks)
  | "f"%char => Some (MLiteral (list_ascii_of_string "alse") TFalse, toks)
  | "n"%char => Some (MLiteral (list_ascii_of_string "ull") TNull, toks)
  | _ =>
      if is_digit c || Ascii.eqb c "-"%char then Some (MNumber [c], toks)
      else None
  end.

Definition scan_escape (c : ascii) (acc : list ascii) : option mode :=
  match c with
  | "034"%char | "\"%char | "/"%char => Some (MString (c :: acc))
  | "b"%char => Some (MString ("008"%char :: acc))
  | "f"%char => Some (MString ("012"%char :: acc))
  | "n"%char => Some (MString ("010"%char :: acc))
  | "r"%char => Some (MString ("013"%char :: acc))
  | "t"%char => Some (MString ("009"%char :: acc))
  | "u"%char => Some (MUnicode acc 0 4)
  | _ => None
  end.

Definition scan_step (c : ascii) (st : mode * list token) : option (mode * list token) :=
  let (m, toks) := st in
  match m with
  | MIdle => scan_idle c toks
  | MString acc =>
      if Ascii.eqb c "034"%char then Some (MIdle, TString (string_of_rev acc) :: toks)
      else if Ascii.eqb c "\"%char then Some (MEscape acc, toks)
      else if (N_of_ascii c <? 32)%N then None
      else Some (MString (c :: acc), toks)
  | MEscape acc => option_map (fun m' => (m', toks)) (scan_escape c acc)
  | MUnicode acc code remaining =>
      match hex_digit c with
      | None => None
      | Some d =>
          let code' := (code * 16 + d)%N in
          match remaining with
          | O | 1%nat => Some (MString (rev_append (code_unit_bytes code') acc), toks)
          | S r => Some (MUnicode acc code' r, toks)
          end
      end
  | MNumber acc =>
      if is_number_char c then Some (MNumber (c :: acc), toks)
      else scan_idle c (TNumber (rev acc) :: toks)
  | MLiteral rest t =>
      match rest with
      | [] => None
      | x :: [] => if Ascii.eqb c x then Some (MIdle, t :: toks) else None
      | x :: rest' => if Ascii.eqb c x then Some (MLiteral rest' t, toks) else None
      end
  end.

Fixpoint scan (cs : list ascii) (st : mode * list token) : option (list token) :=
  match cs with
  | [] =>
      match st with
      | (MIdle, toks) => Some (rev toks)
      | (MNumber acc, toks) => Some (rev (TNumber (rev acc) :: toks))
      | _ => None
      end
  | c :: cs' =>
      match scan_step c st with
      | Some st' => scan cs' st'
      | None => None
      end
  end.

(** A number literal: [-? int frac? exp?], with no leading zero in
    [int]. *)
Fixpoint span_digits (cs : list ascii) : list ascii * list ascii :=
  match cs with
  | c :: cs' =>
      if is_digit c then let (ds, rest) := span_digits cs' in (c :: ds, rest)
      else ([], cs)
  | [] => ([], [])
  end.

Definition digits_value (ds : list ascii) : Z :=
  fold_left (fun acc c => 10 * acc + Z.of_N (N_of_ascii c - 48)) ds 0.

(** The binary64 value nearest to [m * 10 ^ e], ties to even. *)
Definition decimal_to_number (neg : bool) (m e : Z) : number :=
  match m with
  | Zpos p =>
      if 0 <=? e then binary_normalize prec emax (cond_Zopp neg (m * 10 ^ e)) 0 false
      else SFdiv prec emax (S754_finite neg p 0)
                           (S754_finite false (Z.to_pos (10 ^ (- e))) 0)
  | _ => S754_zero neg
  end.

Definition well_formed_int (ds : list ascii) : bool :=
  match ds with
  | [] => false
  | "0"%char :: _ :: _ => false
  | _ => true
  end.

Definition parse_exponent (cs : list ascii) : option Z :=
  match cs with
  | [] => Some 0
  | c :: cs1 =>
      if Ascii.eqb c "e"%char || Ascii.eqb c "E"%char then
        let (neg, cs2) :=
          match cs1 with
          | "-"%char :: r => (true, r)
          | "+"%char :: r => (false, r)
          | _ => (false, cs1)
          end in
        match span_digits cs2 with
        | ((_ :: _) as ds, []) => Some (cond_Zopp neg (digits_value ds))
        | _ => None
        end
      else None
  end.

Definition parse_number (cs : list ascii) : option number :=
  let (neg, cs1) :=
    match cs with
    | "-"%char :: r => (true, r)
    | _ => (false, cs)
    end in
  let (ip, cs2) := span_digits cs1 in
  if well_formed_int ip then
    match cs2 with
    | "."%char :: r =>
        match span_digits r with
        | ((_ :: _) as fp, cs3) =>
            option_map
              (fun ex => decimal_to_number neg (digits_value (ip ++ fp)%list)
                                           (ex - Z.of_nat (List.length fp)))
              (parse_exponent cs3)
        | _ => None
        end
    | _ =>
        option_map (fun ex => decimal_to_number neg (digits_value ip) ex)
                   (parse_exponent cs2)
    end
  else None.

(** The containers that are open around the value being read, innermost
    first, each with what it holds so far (in reverse). *)
Inductive frame : Type :=
| FArray (items : list json)
| FObject (fields : list (string * json)) (key : string).

Inductive pstate : Type :=
| PValue (stk : list frame)
| PArrayFirst (stk : list frame)
| PArrayNext (items : list json) (stk : list frame)
| PObjectFirst (stk : list frame)
| PObjectKey (fields : list (string * json)) (stk : list frame)
| PObjectColon (fields : list (string * json)) (key : string) (stk : list frame)
| PObjectNext (fields : list (string * json)) (stk : list frame)
| PDone (v : json).

(** A value is complete: hand it to the innermost open container. *)
Definition complete (v : json) (stk : list frame) : pstate :=
  match stk with
  | [] => PDone v
  | FArray items :: stk' => PArrayNext (v :: items) stk'
  | FObject fields key :: stk' => PObjectNext ((key, v) :: fields) stk'
  end.

Definition parse_value_start (t : token) (stk : list frame) : option pstate :=
  match t with
  | TString s => Some (complete (JString s) stk)
  | TNumber lit => option_map (fun n => complete (JNumber n) stk) (parse_number lit)
  | TTrue => Some (complete (JBool true) stk)
  | TFalse => Some (complete (JBool false) stk)
  | TNull => Some (complete JNull stk)
  | TLBracket => Some (PArrayFirst stk)
  | TLBrace => Some (PObjectFirst stk)
  | _ => None
  end.

Definition parse_step (t : token) (st : pstate) : option pstate :=
  match st with
  | PValue stk => parse_value_start t stk
  | PArrayFirst stk =>
      match t with
      | TRBracket => Some (complete (JArray []) stk)
      | _ => parse_value_start t (FArray [] :: stk)
      end
  | PArrayNext items stk =>
      match t with
      | TComma => Some (PValue (FArray items :: stk))
      | TRBracket => Some (complete (JArray (rev items)) stk)
      | _ => None
      end
  | PObjectFirst stk =>
      match t with
      | TRBrace => Some (complete (JObject []) stk)
      | TString k => Some (PObjectColon [] k stk)
      | _ => None
      end
  | PObjectKey fields stk =>
      match t with
      | TString k => Some (PObjectColon fields k stk)
      | _ => None
      end
  | PObjectColon fields k stk =>
      match t with
      | TColon => Some (PValue (FObject fields k :: stk))
      | _ => None
      end
  | PObjectNext fields stk =>
      match t with
      | TComma => Some (PObjectKey fields stk)
      | TRBrace => Some (complete (JObject (rev fields)) stk)
      | _ => None
      end
  | PDone _ => None
  end.

Fixpoint parse_tokens (ts : list token) (st : pstate) : option json :=
  match ts with
  | [] => match st with PDone v => Some v | _ => None end
  | t :: ts' =>
      match parse_step t st with
      | Some st' => parse_tokens ts' st'
      | None => None
      end
  end.

(** [JSON.parse(text)]: the value, or a [SyntaxError]. *)
Definition JSON_parse (text : string) : completion json :=
  match scan (list_ascii_of_string text) (MIdle, []) with
  | Some ts =>
      match parse_tokens ts (PValue []) with
      | Some v => Normal v
      | None => Throw SyntaxError
      end
  | None => Throw SyntaxError
  end.

(** ** [JSON.stringify] on an array of integers *)

(** The ids are integers that binary64 holds exactly and that
    [Number::toString] writes with all their digits:
    [Number.isSafeInteger]. *)
Definition safe_integer (z : Z) : bool := Z.abs z <? 2 ^ 53.

(** [Number::toString] on a safe integer: its decimal numeral.  (From
    [1e21] on the method writes an exponent, which this does not
    cover.) *)
Definition Number_toString (z : Z) : string :=
  NilZero.string_of_int (Z.to_int z).

Fixpoint join (sep : string) (l : list string) : string :=
  match l with
  | [] => EmptyString
  | [x] => x
  | x :: l' => x ++ sep ++ join sep l'
  end.

Definition JSON_stringify (ids : list Z) : string :=
  "[" ++ join "," (map Number_toString ids) ++ "]".

(** ** The HTTP client *)

(** The four URLs the page requests, by their parts:
    ['movies/'], ['movies/?refresh=true'],
    ['recommended/?id=<movieId>&type=<recType>'] and
    ['collaborative_recommended/?id=<movieId>']. *)
Inductive request : Type :=
| GetMovies
| GetMoviesRefresh
| GetRecommended (movieId : value) (recType : string)
| GetCollaborative (movieId : value).

(** A rejected request, as far as the page reads it:
    [err.response?.data?.error] and [err.response?.data?.detail]. *)
Record AxiosError : Type := {
  response_error : option string;
  response_detail : option string
}.

Inductive reply : Type :=
| Resolved (data : json)
| Rejected (err : AxiosError).

(** [err.response?.data?.error || err.response?.data?.detail || fallback] *)
Definition error_message (err : AxiosError) (fallback : string) : string :=
  match response_error err with
  | Some (String _ _ as e) => e
  | _ =>
      match response_detail err with
      | Some (String _ _ as d) => d
      | _ => fallback
      end
  end.

(** ** Component state *)

Record State : Type := {
  movies : list json;
  recommended : list json;
  selectedMovieId : value;
  loading : bool;
  recLoading : bool;
  error : option string;
  recommendationError : option string
}.

(** What a handler does, in program order: calls of the state setters
    and requests to the backend. *)
Inductive action : Type :=
| SetMovies (l : list json)
| SetRecommended (l : list json)
| SetSelectedMovieId (v : value)
| SetLoading (b : bool)
| SetRecLoading (b : bool)
| SetError (e : option string)
| SetRecommendationError (e : option string)
| ApiGet (r : request).

Definition apply_action (s : State) (a : action) : State :=
  match a with
  | SetMovies l =>
      {| movies := l; recommended := recommended s;
         selectedMovieId := selectedMovieId s; loading := loading s;
         recLoading := recLoading s; error := error s;
         recommendationError := recommendationError s |}
  | SetRecommended l =>
      {| movies := movies s; recommended := l;
         selectedMovieId := selectedMovieId s; loading := loading s;
         recLoading := recLoading s; error := error s;
         recommendationError := recommendationError s |}
  | SetSelectedMovieId v =>
      {| movies := movies s; recommended := recommended s;
         selectedMovieId := v; loading := loading s;
         recLoading := recLoading s; error := error s;
         recommendationError := recommendationError s |}
  | SetLoading b =>
      {| movies := movies s; recommended := recommended s;
         selectedMovieId := selectedMovieId s; loading := b;
         recLoading := recLoading s; error := error s;
         recommendationError := recommendationError s |}
  | SetRecLoading b =>
      {| movies := movies s; recommended := recommended s;
         selectedMovieId := selectedMovieId s; loading := loading s;
         recLoading := b; error := error s;
         recommendationError := recommendationError s |}
  | SetError e =>
      {| movies := movies s; recommended := recommended s;
         selectedMovieId := selectedMovieId s; loading := loading s;
         recLoading := recLoading s; error := e;
         recommendationError := recommendationError s |}
  | SetRecommendationError e =>
      {| movies := movies s; recommended := recommended s;
         selectedMovieId := selectedMovieId s; loading := loading s;
         recLoading := recLoading s; error := error s;
         recommendationError := e |}
  | ApiGet _ => s
  end.

(** The state once every action of a handler has been applied. *)
Definition run (s : State) (acts : list action) : State :=
  fold_left apply_action acts s.

(** The requests a handler sent. *)
Fixpoint requests (acts : list action) : list request :=
  match acts with
  | [] => []
  | ApiGet r :: acts' => r :: requests acts'
  | _ :: acts' => requests acts'
  end.

(** The initial values given to [useState]. *)
Definition initial_state : State :=
  {| movies := []; recommended := []; selectedMovieId := VNull;
     loading := true; recLoading := false; error := None;
     recommendationError := None |}.

(** ** The handlers *)

Section Handlers.
(** The backend, as the answer it gives to each request. *)
Variable API_get : request -> reply.

(** [fetchMovies], the body of the mount effect. *)
Definition fetchMovies : list action :=
  ([SetLoading true; ApiGet GetMovies] ++
   match API_get GetMovies with
   | Resolved data => [SetMovies (array_or_empty data); SetError None]
   | Rejected err =>
       [SetError (Some (error_message err
          "Failed to load movies. Please try again later."))]
   end ++
   [SetLoading false])%list.

Definition handleRefresh : list action :=
  ([SetLoading true; SetError None; SetRecommendationError None;
    SetRecommended []; ApiGet GetMoviesRefresh] ++
   match API_get GetMoviesRefresh with
   | Resolved data => [SetMovies (array_or_empty data); SetError None]
   | Rejected err =>
       [SetError (Some (error_message err "Failed to refresh movies."))]
   end ++
   [SetLoading false])%list.

(** The URL [fetchRecommended] builds from [recType] and [movieId]. *)
Definition recommendation_request (recType : string) (movieId : value) : request :=
  if (recType =? "collaborative")%string then GetCollaborative movieId
  else GetRecommended movieId recType.

(** The message shown when a recommendation request is rejected. *)
Definition recommendation_error_message (recType : string) (err : AxiosError) : string :=
  let errorMsg :=
    error_message err "Failed to load recommendations. Please try again." in
  if (recType =? "collaborative")%string then
    if includes (toLowerCase errorMsg) "tmdb" then
      errorMsg ++ " Collaborative recommendations rely on TMDb data."
    else if includes (toLowerCase errorMsg) "no local movies match" then
      errorMsg
    else errorMsg
  else errorMsg.

(** [!movieId || isNaN(movieId)] *)
Definition invalid_movieId (movieId : value) : bool :=
  negb (truthy movieId) || isNaN movieId.

(** [fetchRecommended(movieId)], with the [recType] of the render it
    was created in. *)
Definition fetchRecommended (recType : string) (movieId : value) : list action :=
  if invalid_movieId movieId then
    [SetRecommendationError (Some "Please select a valid movie.")]
  else
    ([SetRecLoading true; SetRecommendationError None; SetRecommended [];
      ApiGet (recommendation_request recType movieId)] ++
     match API_get (recommendation_request recType movieId) with
     | Resolved data =>
         [SetRecommended (array_or_empty data); SetSelectedMovieId movieId]
     | Rejected err =>
         [SetRecommendationError (Some (recommendation_error_message recType err));
          SetRecommended []]
     end ++
     [SetRecLoading false])%list.
End Handlers.

(** ** The catalog, as the filter and sort engine reads it *)

(** A catalog entry with the fields the page reads, at the types of the
    data model: a string title, optional strings and optional numbers
    ([None] is [undefined] or [null]), and an integer id. *)

Record Movie : Type := {
  id : Z;
  title : string;
  description : option string;
  genre : option string;
  rating : option number;
  year : option number;
  poster_url : option string
}.

(** [Boolean(g)] for an optional string. *)
Definition keep_truthy (l : list (option string)) : list string :=
  flat_map (fun g => match g with
                     | Some (String _ _ as s) => [s]
                     | _ => []
                     end) l.

(** [[...new Set(l)]]: the elements in the order of their first
    occurrence. *)
Definition Set_add (seen : list string) (x : string) : list string :=
  if existsb (String.eqb x) seen then seen else (seen ++ [x])%list.

Definition Set_values (l : list string) : list string :=
  fold_left Set_add l [].

(** The [genres] memo. *)
Definition genres (movies : list Movie) : list string :=
  let uniqueGenres := Set_values (keep_truthy (map genre movies)) in
  "All" :: sort default_compare uniqueGenres.

Section Engine.
(** The lower-case mapping of the host, from the Unicode tables: what
    [String.prototype.toLowerCase] gives for a string that is not empty.
    It folds every cased letter and depends on the context of a letter
    (the final sigma), so nothing is assumed of it. *)
Variable Unicode_toLowerCase : string -> string.

(** [a.localeCompare(b)]: the collation of the host locale. *)
Variable localeCompare : string -> string -> number.

(** [s.toLowerCase()]: the empty string is its own lower case. *)
Definition String_toLowerCase (s : string) : string :=
  match s with
  | EmptyString => EmptyString
  | String _ _ => Unicode_toLowerCase s
  end.

Definition matchesSearch (searchTerm : string) (movie : Movie) : bool :=
  includes (String_toLowerCase (title movie)) (String_toLowerCase searchTerm) ||
  match description movie with
  | Some (String _ _ as d) =>
      includes (String_toLowerCase d) (String_toLowerCase searchTerm)
  | _ => false
  end.

Definition matchesGenre (selectedGenre : string) (movie : Movie) : bool :=
  (selectedGenre =? "All")%string ||
  match genre movie with
  | Some g => (g =? selectedGenre)%string
  | None => false
  end.

Definition filterMovies (movies : list Movie) (searchTerm selectedGenre : string)
  : list Movie :=
  filter (fun movie => matchesSearch searchTerm movie && matchesGenre selectedGenre movie)
         movies.

Definition compareMovies (sortBy : string) (a b : Movie) : number :=
  if (sortBy =? "title")%string then localeCompare (title a) (title b)
  else if (sortBy =? "rating")%string then
    number_sub (or_zero (rating b)) (or_zero (rating a))
  else if (sortBy =? "year")%string then
    number_sub (or_zero (year b)) (or_zero (year a))
  else zero.

(** The [filteredAndSortedMovies] memo. *)
Definition filteredAndSortedMovies
    (movies : list Movie) (searchTerm selectedGenre sortBy : string) : list Movie :=
  sort (compareMovies sortBy) (filterMovies movies searchTerm selectedGenre).
End Engine.

(** ** The favorites store *)

(** The initial value of the [favorites] state, from
    [saved = localStorage.getItem('movieFavorites')] ([None] is [null]). *)
Definition initFavorites (saved : option string) : completion json :=
  match saved with
  | Some (String _ _ as text) => JSON_parse text
  | _ => Normal (JArray [])
  end.

(** The update [toggleFavorite(movieId)] hands to [setFavorites]:
    [prev.includes(movieId) ? prev.filter(id => id !== movieId)
                            : [...prev, movieId]].
    The ids are integers, on which [includes] and [!==] decide
    equality. *)
Definition toggle (movieId : Z) (prev : list Z) : list Z :=
  if existsb (Z.eqb movieId) prev
  then filter (fun id => negb (id =? movieId)) prev
  else (prev ++ [movieId])%list.

(** The store between React and the browser: the committed [favorites]
    state, the updates queued by [setFavorites] and not yet rendered,
    whether the persistence effect is due, and the entry of
    [localStorage]. *)
Record Store : Type := {
  favorites : list Z;
  queued : list Z;
  effect_due : bool;
  movieFavorites : option string
}.

(** The call [toggleFavorite(movieId)]: it queues the update and
    returns. *)
Definition toggleFavorite (movieId : Z) (st : Store) : Store :=
  {| favorites := favorites st;
     queued := (queued st ++ [movieId])%list;
     effect_due := effect_due st;
     movieFavorites := movieFavorites st |}.

(** The next render: the queued updates are applied in order; each
    yields a new array, so the dependency [[favorites]] has changed. *)
Definition render (st : Store) : Store :=
  {| favorites := fold_left (fun prev movieId => toggle movieId prev)
                            (queued st) (favorites st);
     queued := [];
     effect_due := match queued st with
                   | [] => effect_due st
                   | _ :: _ => true
                   end;
     movieFavorites := movieFavorites st |}.

(** The effect after the commit:
    [localStorage.setItem('movieFavorites', JSON.stringify(favorites))]. *)
Definition run_effects (st : Store) : Store :=
  if effect_due st then
    {| favorites := favorites st;
       queued := queued st;
       effect_due := false;
       movieFavorites := Some (JSON_stringify (favorites st)) |}
  else st.

(** The first render: the effect is due once on mount. *)
Definition mount (initial : list Z) (saved : option string) : Store :=
  run_effects
    {| favorites := initial; queued := []; effect_due := true;
       movieFavorites := saved |}.

(** A click on the heart of a card, up to the next idle point of the
    page: the handler, the render it causes and the effect. *)
Definition click_favorite (movieId : Z) (st : Store) : Store :=
  run_effects (render (toggleFavorite movieId st)).

(** ** Predicates and sample data for the properties *)

(** The values the guard of [fetchRecommended] turns away. *)
Inductive falsy_or_NaN : value -> Prop :=
| fn_undefined : falsy_or_NaN VUndefined
| fn_null : falsy_or_NaN VNull
| fn_false : falsy_or_NaN (VBool false)
| fn_zero : forall s, falsy_or_NaN (VNumber (S754_zero s))
| fn_nan : falsy_or_NaN (VNumber S754_nan).

Definition minus_one : value := VNumber (number_of_Z (-1)).
Definition one_half : value := VNumber (S754_finite false 4503599627370496 (-53)).

(** A backend that answers every request with an empty list. *)
Definition backend_empty : request -> reply := fun _ => Resolved (JArray []).

(** A backend that answers every request with a body that is no list. *)
Definition backend_object : request -> reply :=
  fun _ => Resolved (JObject [("detail", JString "ok")]).

(** A component in which an earlier request has left two results. *)
Definition state_with_results : State :=
  {| movies := []; recommended := [JNumber (number_of_Z 7); JNull];
     selectedMovieId := VNumber (number_of_Z 3);
     loading := false; recLoading := false; error := None;
     recommendationError := None |}.


(** The catalog of the scenario of the specification, a movie whose
    genre is the word of the sentinel, and one without genre or rating. *)
Definition rating_4_5 : number := decimal_to_number false 45 (-1).

Definition dune : Movie :=
  {| id := 1; title := "Dune"; description := Some "Spice on Arrakis";
     genre := Some "Sci-Fi"; rating := Some rating_4_5;
     year := Some (number_of_Z 2021); poster_url := None |}.

Definition her : Movie :=
  {| id := 2; title := "Her"; description := None;
     genre := Some "Drama"; rating := Some rating_4_5;
     year := Some (number_of_Z 2013); poster_url := None |}.

Definition all_about_eve : Movie :=
  {| id := 3; title := "All About Eve"; description := Some EmptyString;
     genre := Some "All"; rating := Some (number_of_Z 5);
     year := Some (number_of_Z 1950); poster_url := None |}.

Definition untitled : Movie :=
  {| id := 4; title := "Rough Cut"; description := Some "a DUNE fan film";
     genre := None; rating := None; year := None; poster_url := None |}.

(** Two strings are the same up to the case of their ASCII letters. *)
Inductive eq_ignoring_case : string -> string -> Prop :=
| eic_empty : eq_ignoring_case EmptyString EmptyString
| eic_char : forall c1 c2 s1 s2,
    lower_ascii c1 = lower_ascii c2 ->
    eq_ignoring_case s1 s2 ->
    eq_ignoring_case (String c1 s1) (String c2 s2).

(** [q] occurs in [t] up to the case of the ASCII letters: some part of
    [t] is [q] up to case. *)
Definition ci_substring (q t : string) : Prop :=
  exists pre mid post, t = pre ++ mid ++ post /\ eq_ignoring_case mid q.

(** "[q] is a case-insensitive substring of [t]" for the search of the
    catalog: the lower case of [q] occurs in the lower case of [t], under
    the lower-case mapping of the host. *)
Definition occurs_ignoring_case
    (Unicode_toLowerCase : string -> string) (q t : string) : Prop :=
  exists pre post,
    String_toLowerCase Unicode_toLowerCase t =
    pre ++ String_toLowerCase Unicode_toLowerCase q ++ post.

(** Ascending order of strings by code units. *)
Definition string_lt (a b : string) : Prop := String.ltb a b = true.

(** The rating the sort by rating uses: [movie.rating || 0]. *)
Definition effective_rating (movie : Movie) : number := or_zero (rating movie).

(** The rating of the movie, when present, is a binary64 number. *)
Definition valid_rating (movie : Movie) : bool :=
  match rating movie with
  | Some n => valid_number n
  | None => true
  end.

(** The value of a number in units of [2 ^ -1074], the spacing of the
    smallest binary64 numbers; the infinities are placed beyond every
    finite number. *)
Definition scaled (x : number) : Z :=
  match x with
  | S754_zero _ | S754_nan => 0
  | S754_infinity s => cond_Zopp s (2 ^ 2100)
  | S754_finite s m e => cond_Zopp s (Zpos m * 2 ^ (e + 1074))
  end.

(** Highest key first. *)
Definition descending {A : Type} (key : A -> Z) (a b : A) : Prop := key b <= key a.

(** The rating of [b] is at most the rating of [a], missing ratings
    read as 0. *)
Definition rating_not_above (a b : Movie) : Prop :=
  SFleb (effective_rating b) (effective_rating a) = true.

(** The movies of a list whose rating equals [r], in the order of the
    list. *)
Definition with_rating (r : number) (l : list Movie) : list Movie :=
  filter (fun movie => SFeqb (effective_rating movie) r) l.

(** ** What the page renders *)

(** Where the component goes at its two early returns: the spinner
    while [loading], the error panel when [error] is truthy, and
    otherwise on to the body of the page ([MainView]), whose rendering
    reads the entries of the catalog and is not part of this function. *)
Inductive view : Type :=
| LoadingView
| ErrorView (message : string)
| MainView.

Definition page_view (s : State) : view :=
  if loading s then LoadingView
  else match error s with
       | Some (String _ _ as message) => ErrorView message
       | _ => MainView
       end.

(** The four conditional blocks of the recommendation area, each by the
    condition that guards it. *)
Definition shows_rec_loading (s : State) : bool := recLoading s.

Definition shows_rec_error (s : State) : bool :=
  string_truthy (recommendationError s) && negb (recLoading s).

Definition shows_no_recommendations (s : State) : bool :=
  negb (recLoading s) && negb (string_truthy (recommendationError s)) &&
  (List.length (recommended s) =? 0)%nat && truthy (selectedMovieId s).

Definition shows_recommendations (s : State) : bool :=
  (0 <? List.length (recommended s))%nat &&
  negb (string_truthy (recommendationError s)) && negb (recLoading s).

(** How many of the four blocks are rendered. *)
Definition rec_blocks_shown (s : State) : nat :=
  ((if shows_rec_loading s then 1 else 0) +
   (if shows_rec_error s then 1 else 0) +
   (if shows_no_recommendations s then 1 else 0) +
   (if shows_recommendations s then 1 else 0))%nat.

(** The sentence appended to a collaborative error that mentions TMDb. *)
Definition tmdb_note : string := " Collaborative recommendations rely on TMDb data.".

(** A backend that rejects every request with the given body fields. *)
Definition backend_rejecting (e d : option string) : request -> reply :=
  fun _ => Rejected {| response_error := e; response_detail := d |}.

(** A catalog entry as the backend sends it. *)
Definition dune_json : json :=
  JObject [("id", JNumber (number_of_Z 1)); ("title", JString "Dune");
           ("genre", JString "Sci-Fi"); ("rating", JNumber rating_4_5)].

(** A backend that answers every request with a catalog of one movie. *)
Definition backend_catalog : request -> reply :=
  fun _ => Resolved (JArray [dune_json]).

(** A backend that answers every request with two entries. *)
Definition backend_two : request -> reply :=
  fun _ => Resolved (JArray [JNumber (number_of_Z 1); JNumber (number_of_Z 2)]).

(** The year the sort by year uses: [movie.year || 0]. *)
Definition effective_year (movie : Movie) : number := or_zero (year movie).

(** The year of the movie, when present, is a binary64 number. *)
Definition valid_year (movie : Movie) : bool :=
  match year movie with
  | Some n => valid_number n
  | None => true
  end.

Definition year_not_above (a b : Movie) : Prop :=
  SFleb (effective_year b) (effective_year a) = true.

Definition with_year (r : number) (l : list Movie) : list Movie :=
  filter (fun movie => SFeqb (effective_year movie) r) l.

(** What a comparison function says of two elements: [a] need not come
    after [b]; and neither need come after the other. *)
Definition not_after {A : Type} (comparefn : A -> A -> number) (a b : A) : bool :=
  negb (is_positive (SortCompare comparefn a b)).

Definition same_rank {A : Type} (comparefn : A -> A -> number) (a b : A) : bool :=
  not_after comparefn a b && not_after comparefn b a.

(** A consistent comparison: any two elements are comparable, and
    "need not come after" is transitive. *)
Definition consistent {A : Type} (comparefn : A -> A -> number) : Prop :=
  (forall a b, not_after comparefn a b = true \/ not_after comparefn b a = true) /\
  (forall a b c, not_after comparefn a b = true -> not_after comparefn b c = true ->
                 not_after comparefn a c = true).

(** Several clicks on hearts, each rendered and persisted before the
    next. *)
Definition clicks (ids : list Z) (st : Store) : Store :=
  fold_left (fun s movieId => click_favorite movieId s) ids st.

(** Several calls of [toggleFavorite] in one event, rendered and
    persisted together. *)
Definition batch (ids : list Z) (st : Store) : Store :=
  run_effects (render (fold_left (fun s movieId => toggleFavorite movieId s) ids st)).

(** The favorites after the updates [ids], applied in order. *)
Definition toggles (ids : list Z) (prev : list Z) : list Z :=
  fold_left (fun p movieId => toggle movieId p) ids prev.

(** The characters of the decimal numeral of an integer. *)
Definition numeral (z : Z) : list ascii := list_ascii_of_string (Number_toString z).

(** The tokens of the array of the numerals of [ids] between its
    brackets. *)
Definition numeral_tokens (ids : list Z) : list token :=
  match ids with
  | [] => []
  | z :: rest =>
      TNumber (numeral z) :: flat_map (fun z' => [TComma; TNumber (numeral z')]) rest
  end.

(** The characters a number token can begin with. *)
Definition number_start (c : ascii) : bool := is_digit c || Ascii.eqb c "-"%char.

(** The text after the first numeral of an array: each further numeral
    with its comma, and the closing bracket. *)
Definition numerals_tail (rest : list Z) : string :=
  fold_right (fun z s => "," ++ Number_toString z ++ s)%string "]" rest.

(** ** The stars of a card *)

(** The result of [ToIntegerOrInfinity]. *)
Inductive integer_or_infinity : Type :=
| Integer (z : Z)
| PlusInfinity
| MinusInfinity.

(** [Math.floor(x)], as [String.prototype.repeat] reads its argument:
    the greatest integer not above [x], NaN read as 0. *)
Definition floor_integer (x : number) : integer_or_infinity :=
  match x with
  | S754_zero _ | S754_nan => Integer 0
  | S754_infinity s => if s then MinusInfinity else PlusInfinity
  | S754_finite s m e =>
      Integer (if 0 <=? e then cond_Zopp s (Zpos m * 2 ^ e)
               else cond_Zopp s (Zpos m) / 2 ^ (- e))
  end.

Fixpoint copies (n : nat) (s : string) : string :=
  match n with
  | O => EmptyString
  | S n' => s ++ copies n' s
  end.

(** The bytes that continue a code unit (see [code_unit_bytes]). *)
Definition is_continuation (c : ascii) : bool :=
  let n := N_of_ascii c in ((128 <=? n) && (n <? 192))%N.

(** [s.length]: the number of UTF-16 code units. *)
Fixpoint code_units (s : string) : Z :=
  match s with
  | EmptyString => 0
  | String c s' => (if is_continuation c then 0 else 1) + code_units s'
  end.

(** U+2B50 *)
Definition star : string := string_of_list_ascii (code_unit_bytes 11088).

Section Repeat.
(** The longest string the host builds, in code units (at most
    [2 ^ 53 - 1]; [2 ^ 29 - 24] in V8). *)
Variable String_max_length : Z.

(** [s.repeat(count)]: [None] is the [RangeError] thrown for a negative
    or infinite count, and for a result longer than the host allows. *)
Definition String_repeat (s : string) (count : integer_or_infinity) : option string :=
  match count with
  | Integer z =>
      if z <? 0 then None
      else if String_max_length <? z * code_units s then None
      else Some (copies (Z.to_nat z) s)
  | _ => None
  end.

(** ['⭐'.repeat(Math.floor(movie.rating || 0))] *)
Definition stars (movie : Movie) : option string :=
  String_repeat star (floor_integer (or_zero (rating movie))).
End Repeat.

(** The limit of V8, for the examples. *)
Definition V8_max_length : Z := 2 ^ 29 - 24.

(** ** The search link of a card *)

(** The characters [encodeURIComponent] leaves as they are. *)
Definition uri_unreserved (c : ascii) : bool :=
  let n := N_of_ascii c in
  (((65 <=? n) && (n <=? 90)) || ((97 <=? n) && (n <=? 122)) ||
   ((48 <=? n) && (n <=? 57)))%N ||
  match c with
  | "-"%char | "_"%char | "."%char | "!"%char | "~"%char
  | "*"%char | "'"%char | "("%char | ")"%char => true
  | _ => false
  end.

Definition hex_upper (d : N) : ascii :=
  (if d <? 10 then ascii_of_N (48 + d) else ascii_of_N (55 + d))%N.

Definition percent_byte (c : ascii) : string :=
  let n := N_of_ascii c in
  String "%" (String (hex_upper (n / 16)) (String (hex_upper (n mod 16)) EmptyString)).

Definition encode_unit (c : ascii) : string :=
  if uri_unreserved c then String c EmptyString else percent_byte c.

(** [encodeURIComponent(s)], for a string without surrogate code units:
    every other byte of the UTF-8 form is written [%XX]. *)
Fixpoint encodeURIComponent (s : string) : string :=
  match s with
  | EmptyString => EmptyString
  | String c s' => encode_unit c ++ encodeURIComponent s'
  end.

(** The address [handleWatchNow(movieTitle)] and
    [handleMoreInfo(movieTitle)] open in a new tab. *)
Definition handleWatchNow (movieTitle : string) : string :=
  "https://www.google.com/search?q=" ++ encodeURIComponent movieTitle.

Definition handleMoreInfo (movieTitle : string) : string :=
  "https://www.google.com/search?q=" ++ encodeURIComponent movieTitle.

(** A movie with a negative rating. *)
Definition panned : Movie :=
  {| id := 5; title := "Cats & Dogs #2"; description := None; genre := None;
     rating := Some (decimal_to_number true 5 (-1)); year := None;
     poster_url := None |}.

(* ================================================================= *)
(** * Part II: properties *)
(* ================================================================= *)

(** ** The recommendation fetcher *)


Lemma invalid_movieId_iff (movieId : value) :
  invalid_movieId movieId = true <-> falsy_or_NaN movieId.
Proof.
  split.
  - destruct movieId as [ | | [|] | [s|s| |s m e]]; cbn; intro H;
      try discriminate H; constructor.
  - destruct 1; reflexivity.
Qed.

Lemma requests_app (l1 l2 : list action) :
  requests (l1 ++ l2) = (requests l1 ++ requests l2)%list.
Proof.
  induction l1 as [|a l1 IH]; [reflexivity|].
  destruct a; cbn; rewrite IH; reflexivity.
Qed.


Example minus_one_is_truthy : invalid_movieId minus_one = false.
Proof. reflexivity. Qed.

Example one_half_is_truthy : invalid_movieId one_half = false.
Proof. reflexivity. Qed.

Example fetchRecommended_one :
  fetchRecommended backend_empty "content" (VNumber (number_of_Z 1)) =
  [SetRecLoading true; SetRecommendationError None; SetRecommended [];
   ApiGet (GetRecommended (VNumber (number_of_Z 1)) "content");
   SetRecommended []; SetSelectedMovieId (VNumber (number_of_Z 1));
   SetRecLoading false].
Proof. reflexivity. Qed.

(** C1, as stated, fails: [-1] is not a positive integer, yet
    [fetchRecommended(-1)] in content mode passes the guard and sends
    the request [recommended/?id=-1&type=content]. *)
Lemma fetchRecommended_minus_one_requests :
  positive_integer minus_one = false /\
  requests (fetchRecommended backend_empty "content" minus_one) =
    [GetRecommended minus_one "content"] /\
  fetchRecommended backend_empty "content" minus_one <>
    [SetRecommendationError (Some "Please select a valid movie.")].
Proof.
  split; [reflexivity|]. split; [reflexivity|]. discriminate.
Qed.

(** C1 (amended): for every movieId that is falsy or NaN ([undefined],
    [null], [false], [0], [-0], [NaN]) and for every mode,
    [fetchRecommended] does nothing but set the validation message, and
    sends no request. *)
Theorem fetchRecommended_rejects_falsy_or_NaN
    (API_get : request -> reply) (recType : string) (movieId : value) :
  falsy_or_NaN movieId ->
  fetchRecommended API_get recType movieId =
    [SetRecommendationError (Some "Please select a valid movie.")] /\
  requests (fetchRecommended API_get recType movieId) = [].
Proof.
  intro H. apply invalid_movieId_iff in H.
  unfold fetchRecommended. rewrite H. split; reflexivity.
Qed.

Lemma fetchRecommended_rejects_zero :
  falsy_or_NaN (VNumber zero) /\
  fetchRecommended backend_empty "collaborative" (VNumber zero) =
    [SetRecommendationError (Some "Please select a valid movie.")] /\
  requests (fetchRecommended backend_empty "collaborative" (VNumber zero)) = [].
Proof.
  split; [constructor|].
  apply (fetchRecommended_rejects_falsy_or_NaN backend_empty "collaborative" (VNumber zero)).
  constructor.
Defined.

(** Every other movieId, negative and fractional numbers among them,
    passes the guard: exactly one request is sent. *)
Lemma fetchRecommended_requests_otherwise
    (API_get : request -> reply) (recType : string) (movieId : value) :
  ~ falsy_or_NaN movieId ->
  requests (fetchRecommended API_get recType movieId) =
    [recommendation_request recType movieId].
Proof.
  intro H. unfold fetchRecommended.
  destruct (invalid_movieId movieId) eqn:E.
  - exfalso. apply H, invalid_movieId_iff, E.
  - rewrite !requests_app. cbn.
    destruct (API_get _); reflexivity.
Qed.


(** C2, as stated, fails: with movieId [null] the handler returns at the
    guard; it never calls [setRecommended([])] nor
    [setRecommendationError(null)], and the earlier results stay. *)
Lemma fetchRecommended_null_keeps_results :
  ~ In (SetRecommended []) (fetchRecommended backend_empty "content" VNull) /\
  ~ In (SetRecommendationError None) (fetchRecommended backend_empty "content" VNull) /\
  recommended (run state_with_results (fetchRecommended backend_empty "content" VNull))
    = [JNumber (number_of_Z 7); JNull] /\
  recommendationError
    (run state_with_results (fetchRecommended backend_empty "content" VNull))
    = Some "Please select a valid movie.".
Proof.
  repeat split; cbn; try reflexivity; intros [H|[]]; discriminate H.
Qed.

(** C2 (amended): for every invocation whose movieId passes the guard,
    the handler first sets the loading flag, clears the error and empties
    the result list, then sends the request; whatever records the
    outcome comes after. *)
Theorem fetchRecommended_clears_first
    (API_get : request -> reply) (recType : string) (movieId : value) :
  invalid_movieId movieId = false ->
  exists outcome,
    fetchRecommended API_get recType movieId =
      ([SetRecLoading true; SetRecommendationError None; SetRecommended []] ++
       ApiGet (recommendation_request recType movieId) :: outcome)%list /\
    forall s,
      let s' := run s [SetRecLoading true; SetRecommendationError None;
                       SetRecommended []] in
      recommended s' = [] /\ recommendationError s' = None /\ recLoading s' = true.
Proof.
  intro H. unfold fetchRecommended. rewrite H.
  eexists. split; [reflexivity|].
  intro s. cbn. repeat split.
Qed.

Lemma fetchRecommended_clears_first_minus_one :
  exists outcome,
    fetchRecommended backend_empty "content" minus_one =
      ([SetRecLoading true; SetRecommendationError None; SetRecommended []] ++
       ApiGet (recommendation_request "content" minus_one) :: outcome)%list /\
    forall s,
      let s' := run s [SetRecLoading true; SetRecommendationError None;
                       SetRecommended []] in
      recommended s' = [] /\ recommendationError s' = None /\ recLoading s' = true.
Proof.
  apply (fetchRecommended_clears_first backend_empty "content" minus_one).
  reflexivity.
Defined.

(** C10: when the guard of [fetchRecommended] turns the movieId away,
    the result list, the selected movie id and the loading flag of the
    recommendations are as before, and so is the catalog state; only the
    error message of the recommendations is set. *)
Theorem fetchRecommended_invalid_frame
    (API_get : request -> reply) (recType : string) (movieId : value) (s : State) :
  invalid_movieId movieId = true ->
  let s' := run s (fetchRecommended API_get recType movieId) in
  recommended s' = recommended s /\
  selectedMovieId s' = selectedMovieId s /\
  recLoading s' = recLoading s /\
  movies s' = movies s /\ loading s' = loading s /\ error s' = error s /\
  recommendationError s' = Some "Please select a valid movie.".
Proof.
  intro H. unfold fetchRecommended. rewrite H. cbn. repeat split.
Qed.

Lemma fetchRecommended_invalid_frame_null :
  let s' := run state_with_results (fetchRecommended backend_empty "content" VNull) in
  recommended s' = recommended state_with_results /\
  selectedMovieId s' = selectedMovieId state_with_results /\
  recLoading s' = recLoading state_with_results /\
  movies s' = movies state_with_results /\
  loading s' = loading state_with_results /\
  error s' = error state_with_results /\
  recommendationError s' = Some "Please select a valid movie.".
Proof.
  apply (fetchRecommended_invalid_frame backend_empty "content" VNull state_with_results).
  reflexivity.
Defined.

(** ** The catalog loader *)

(** C9: when the request of [fetchMovies] succeeds with a body that is
    not a list, the catalog becomes the empty list, the error is null
    and the loading flag is false once the handler is done. *)
Theorem fetchMovies_non_list
    (API_get : request -> reply) (data : json) (s : State) :
  API_get GetMovies = Resolved data ->
  Array_isArray data = false ->
  let s' := run s (fetchMovies API_get) in
  movies s' = [] /\ error s' = None /\ loading s' = false.
Proof.
  intros Hget Harr. unfold fetchMovies. rewrite Hget.
  destruct data; try discriminate Harr; cbn; repeat split.
Qed.

Lemma fetchMovies_non_list_object :
  let s' := run initial_state (fetchMovies backend_object) in
  movies s' = [] /\ error s' = None /\ loading s' = false.
Proof.
  apply (fetchMovies_non_list backend_object
           (JObject [("detail", JString "ok")]) initial_state);
    reflexivity.
Defined.

(** ** The favorites store *)

Example JSON_parse_favorites :
  JSON_parse "[3,1]" = Normal (JArray [JNumber (number_of_Z 3); JNumber (number_of_Z 1)]).
Proof. reflexivity. Qed.

Example JSON_parse_empty_text : JSON_parse EmptyString = Throw SyntaxError.
Proof. reflexivity. Qed.

(** C3, as stated, fails: the entry ["[1,2"] is present and is not
    JSON; [JSON.parse] throws and nothing catches it, so the initial
    value is not the empty list. *)
Lemma initFavorites_truncated_throws :
  JSON_parse "[1,2" = Throw SyntaxError /\
  initFavorites (Some "[1,2") = Throw SyntaxError /\
  initFavorites (Some "[1,2") <> Normal (JArray []).
Proof.
  split; [reflexivity|]. split; [reflexivity|]. discriminate.
Qed.

(** C3 (amended): an absent entry, and the empty string, give the empty
    list without failure; any other text is handed to [JSON.parse], so a
    text that is not JSON makes the initialisation throw the
    [SyntaxError], and a text that is JSON gives its value. *)
Theorem initFavorites_cases (saved : option string) :
  (saved = None \/ saved = Some EmptyString -> initFavorites saved = Normal (JArray [])) /\
  (forall text, saved = Some text -> text <> EmptyString ->
     JSON_parse text = Throw SyntaxError ->
     initFavorites saved = Throw SyntaxError) /\
  (forall text v, saved = Some text ->
     JSON_parse text = Normal v -> initFavorites saved = Normal v).
Proof.
  split; [|split].
  - intros [-> | ->]; reflexivity.
  - intros text -> Hne Hp. destruct text as [|c text]; [contradiction|exact Hp].
  - intros text v -> Hp. destruct text as [|c text]; [discriminate Hp|exact Hp].
Qed.

Lemma initFavorites_cases_samples :
  initFavorites None = Normal (JArray []) /\
  initFavorites (Some EmptyString) = Normal (JArray []) /\
  initFavorites (Some "[1,2") = Throw SyntaxError /\
  initFavorites (Some "[3,1]") =
    Normal (JArray [JNumber (number_of_Z 3); JNumber (number_of_Z 1)]).
Proof.
  split; [|split; [|split]].
  - apply (proj1 (initFavorites_cases None)). left; reflexivity.
  - apply (proj1 (initFavorites_cases (Some EmptyString))). right; reflexivity.
  - apply (proj1 (proj2 (initFavorites_cases (Some "[1,2"))) "[1,2");
      [reflexivity | discriminate | reflexivity].
  - apply (proj2 (proj2 (initFavorites_cases (Some "[3,1]"))) "[3,1]");
      reflexivity.
Defined.

Lemma existsb_eqb_In (movieId : Z) (l : list Z) :
  existsb (Z.eqb movieId) l = true <-> In movieId l.
Proof.
  rewrite existsb_exists. split.
  - intros [x [Hin Hx]]. apply Z.eqb_eq in Hx. subst x. exact Hin.
  - intro Hin. exists movieId. split; [exact Hin | apply Z.eqb_refl].
Qed.

Lemma In_remove (movieId x : Z) (l : list Z) :
  In x (filter (fun id => negb (id =? movieId)) l) <-> In x l /\ x <> movieId.
Proof.
  rewrite filter_In, negb_true_iff, Z.eqb_neq. reflexivity.
Qed.

(** Membership after one toggle. *)
Lemma In_toggle (movieId x : Z) (prev : list Z) :
  In x (toggle movieId prev) <->
  (In movieId prev /\ In x prev /\ x <> movieId) \/
  (~ In movieId prev /\ (In x prev \/ x = movieId)).
Proof.
  unfold toggle. destruct (existsb (Z.eqb movieId) prev) eqn:E.
  - apply existsb_eqb_In in E. rewrite In_remove. tauto.
  - assert (Hn : ~ In movieId prev).
    { intro H. apply existsb_eqb_In in H. congruence. }
    rewrite in_app_iff. cbn. split.
    + intros [H | [H | []]]; right; split; auto.
    + intros [[H _] | [_ [H | H]]]; [contradiction | auto | auto].
Qed.

Lemma toggle_toggle_In (movieId x : Z) (prev : list Z) :
  In x (toggle movieId (toggle movieId prev)) <-> In x prev.
Proof.
  rewrite In_toggle, !In_toggle.
  destruct (in_dec Z.eq_dec movieId prev) as [Hin | Hout];
    destruct (Z.eq_dec x movieId) as [-> | Hne]; tauto.
Qed.

Lemma fold_toggle_app (l1 l2 : list Z) (prev : list Z) :
  fold_left (fun p movieId => toggle movieId p) (l1 ++ l2)%list prev =
  fold_left (fun p movieId => toggle movieId p) l2
            (fold_left (fun p movieId => toggle movieId p) l1 prev).
Proof. apply fold_left_app. Qed.

Example toggle_absent : toggle 2 [1; 3] = [1; 3; 2].
Proof. reflexivity. Qed.

Example toggle_present : toggle 1 [1; 3; 1] = [3].
Proof. reflexivity. Qed.

Example toggle_twice_reorders : toggle 1 (toggle 1 [1; 3]) = [3; 1].
Proof. reflexivity. Qed.

Lemma remove_absent (movieId : Z) (l : list Z) :
  ~ In movieId l -> filter (fun id => negb (id =? movieId)) l = l.
Proof.
  induction l as [|y l IH]; intro H; [reflexivity|].
  cbn. destruct (Z.eqb_spec y movieId) as [E | E].
  - exfalso. apply H. left. exact E.
  - cbn. f_equal. apply IH. intro Hin. apply H. right. exact Hin.
Qed.

(** C8: a toggle removes an id that is present (every occurrence of it)
    and appends one that is absent, leaving the other ids as they are;
    hence toggling the same id twice gives back a set equal to the one
    before, both for the update itself and for two calls of
    [toggleFavorite] followed by the render: the same ids are members.
    (An id that was absent gives back the very same array; one that was
    present moves to the end.) *)
Theorem toggle_twice_same_set (movieId : Z) (S : list Z) (st : Store) (x : Z) :
  (In movieId S ->
   toggle movieId S = filter (fun id => negb (id =? movieId)) S /\
   ~ In movieId (toggle movieId S)) /\
  (~ In movieId S ->
   toggle movieId S = (S ++ [movieId])%list /\
   In movieId (toggle movieId S) /\
   toggle movieId (toggle movieId S) = S) /\
  (x <> movieId -> (In x (toggle movieId S) <-> In x S)) /\
  (In x (toggle movieId (toggle movieId S)) <-> In x S) /\
  (In x (favorites (render (toggleFavorite movieId (toggleFavorite movieId st))))
   <-> In x (favorites (render st))).
Proof.
  split; [|split; [|split; [|split]]].
  - intro Hin. assert (E : existsb (Z.eqb movieId) S = true)
      by (apply existsb_eqb_In, Hin).
    unfold toggle. rewrite E. split; [reflexivity|].
    intro H. apply In_remove in H. tauto.
  - intro Hout.
    assert (E : existsb (Z.eqb movieId) S = false).
    { destruct (existsb (Z.eqb movieId) S) eqn:E; [|reflexivity].
      exfalso. apply Hout, existsb_eqb_In, E. }
    assert (E' : existsb (Z.eqb movieId) (S ++ [movieId]) = true).
    { apply existsb_eqb_In, in_app_iff. right. left. reflexivity. }
    unfold toggle at 1 2 4. rewrite E. split; [reflexivity|].
    split; [apply in_app_iff; right; left; reflexivity|].
    unfold toggle. rewrite E'.
    rewrite filter_app, (remove_absent movieId S Hout). cbn.
    rewrite Z.eqb_refl. cbn. apply app_nil_r.
  - intro Hne. rewrite In_toggle.
    destruct (in_dec Z.eq_dec movieId S); tauto.
  - apply toggle_toggle_In.
  - cbn. rewrite !fold_toggle_app. cbn. apply toggle_toggle_In.
Qed.

Lemma toggle_twice_same_set_samples :
  (toggle 3 [1; 3; 2; 3] = [1; 2] /\ ~ In 3 (toggle 3 [1; 3; 2; 3])) /\
  (toggle 4 [1; 3] = [1; 3; 4] /\ In 4 (toggle 4 [1; 3]) /\
   toggle 4 (toggle 4 [1; 3]) = [1; 3]) /\
  (In 1 (toggle 3 [1; 3; 2; 3]) <-> In 1 [1; 3; 2; 3]).
Proof.
  split; [|split].
  - apply (proj1 (toggle_twice_same_set 3 [1; 3; 2; 3] (mount [] None) 1)).
    cbn. right. left. reflexivity.
  - apply (proj1 (proj2 (toggle_twice_same_set 4 [1; 3] (mount [] None) 1))).
    cbn. intros [H | [H | []]]; discriminate H.
  - apply (proj1 (proj2 (proj2 (toggle_twice_same_set 3 [1; 3; 2; 3] (mount [] None) 1)))).
    discriminate.
Defined.

(** The store of a page that has just been opened with no saved entry. *)
Example mount_empty :
  mount [] None =
  {| favorites := []; queued := []; effect_due := false;
     movieFavorites := Some "[]" |}.
Proof. reflexivity. Qed.

(** C4, as stated, fails: when the call [toggleFavorite(1)] returns on a
    freshly opened page, [localStorage] still holds ["[]"], while the
    set with 1 toggled, which the next render shows, is encoded ["[1]"]. *)
Lemma toggleFavorite_does_not_write :
  movieFavorites (toggleFavorite 1 (mount [] None)) = Some "[]" /\
  favorites (render (toggleFavorite 1 (mount [] None))) = [1] /\
  JSON_stringify (toggle 1 (favorites (mount [] None))) = "[1]" /\
  movieFavorites (toggleFavorite 1 (mount [] None)) <>
    Some (JSON_stringify (toggle 1 (favorites (mount [] None)))).
Proof.
  repeat split; try reflexivity. discriminate.
Qed.

Lemma render_after_toggle_due (movieId : Z) (st : Store) :
  effect_due (render (toggleFavorite movieId st)) = true.
Proof. cbn. destruct (queued st); reflexivity. Qed.

(** C4 (amended): the call of [toggleFavorite] leaves [localStorage] as
    it is; the write is made by the effect that follows the render of
    the queued update.  Once that effect has run, the entry is the JSON
    encoding of the favorites in memory, nothing is queued and no effect
    is due. *)
Theorem click_favorite_persists (movieId : Z) (st : Store) :
  movieFavorites (toggleFavorite movieId st) = movieFavorites st /\
  let st' := click_favorite movieId st in
  movieFavorites st' = Some (JSON_stringify (favorites st')) /\
  favorites st' = toggle movieId (favorites (render st)) /\
  queued st' = [] /\ effect_due st' = false.
Proof.
  split; [reflexivity|].
  unfold click_favorite, run_effects.
  rewrite render_after_toggle_due. cbn.
  rewrite fold_toggle_app. cbn. repeat split.
Qed.

Example click_favorite_twice :
  click_favorite 5 (click_favorite 2 (mount [] None)) =
  {| favorites := [2; 5]; queued := []; effect_due := false;
     movieFavorites := Some "[2,5]" |}.
Proof. reflexivity. Qed.

(** ** [Array.prototype.sort] *)

Section SortFacts.
Context {A : Type}.
Variable comparefn : A -> A -> number.

Lemma sort_insert_perm (x : A) (l : list A) :
  Permutation (sort_insert comparefn x l) (x :: l).
Proof.
  induction l as [|y l IH]; cbn; [apply Permutation_refl|].
  destruct (is_positive (SortCompare comparefn x y)).
  - eapply perm_trans; [apply perm_skip, IH | apply perm_swap].
  - apply Permutation_refl.
Qed.

Lemma sort_perm (l : list A) : Permutation (sort comparefn l) l.
Proof.
  induction l as [|x l IH]; cbn; [apply perm_nil|].
  eapply perm_trans; [apply sort_insert_perm | apply perm_skip, IH].
Qed.

Lemma sort_In (x : A) (l : list A) : In x (sort comparefn l) <-> In x l.
Proof.
  split; apply Permutation_in; [|apply Permutation_sym]; apply sort_perm.
Qed.
End SortFacts.

(** ** Order of strings *)

Lemma ascii_compare_refl (c : ascii) : Ascii.compare c c = Eq.
Proof. apply N.compare_refl. Qed.

Lemma string_compare_refl (s : string) : String.compare s s = Eq.
Proof.
  induction s as [|c s IH]; cbn; [reflexivity|].
  rewrite ascii_compare_refl. exact IH.
Qed.

Lemma string_lt_irrefl (s : string) : ~ string_lt s s.
Proof.
  unfold string_lt, String.ltb. rewrite string_compare_refl. discriminate.
Qed.

Lemma string_compare_lt_trans (a b c : string) :
  String.compare a b = Lt -> String.compare b c = Lt -> String.compare a c = Lt.
Proof.
  revert b c. induction a as [|x a IH]; intros [|y b] [|z c]; cbn;
    try discriminate; try reflexivity.
  unfold Ascii.compare.
  destruct (N.compare_spec (N_of_ascii x) (N_of_ascii y)) as [Exy|Lxy|Gxy];
    try discriminate;
    destruct (N.compare_spec (N_of_ascii y) (N_of_ascii z)) as [Eyz|Lyz|Gyz];
    try discriminate; intros H1 H2.
  - rewrite Exy, Eyz, N.compare_refl. eapply IH; eassumption.
  - rewrite Exy. apply N.compare_lt_iff in Lyz. rewrite Lyz. reflexivity.
  - rewrite <- Eyz. apply N.compare_lt_iff in Lxy. rewrite Lxy. reflexivity.
  - assert (L : (N_of_ascii x < N_of_ascii z)%N) by (eapply N.lt_trans; eassumption).
    apply N.compare_lt_iff in L. rewrite L. reflexivity.
Qed.

Lemma string_lt_trans (a b c : string) :
  string_lt a b -> string_lt b c -> string_lt a c.
Proof.
  unfold string_lt, String.ltb. intros H1 H2.
  destruct (String.compare a b) eqn:E1; try discriminate.
  destruct (String.compare b c) eqn:E2; try discriminate.
  rewrite (string_compare_lt_trans a b c E1 E2). reflexivity.
Qed.

Lemma string_lt_total (a b : string) : string_lt a b \/ a = b \/ string_lt b a.
Proof.
  unfold string_lt, String.ltb. rewrite (String.compare_antisym b a).
  destruct (String.compare a b) eqn:E; cbn; auto.
  right; left. apply String.compare_eq_iff, E.
Qed.

Lemma string_lt_asym (a b : string) : string_lt a b -> ~ string_lt b a.
Proof.
  intros H1 H2. apply (string_lt_irrefl a). eapply string_lt_trans; eassumption.
Qed.

(** [sort()] moves [x] past [y] exactly when [y] is before [x]. *)
Lemma default_compare_positive (x y : string) :
  is_positive (SortCompare default_compare x y) = String.ltb y x.
Proof.
  unfold SortCompare, default_compare.
  destruct (String.ltb x y) eqn:Exy.
  - destruct (String.ltb y x) eqn:Eyx; [|reflexivity].
    exfalso. exact (string_lt_asym x y Exy Eyx).
  - destruct (String.ltb y x); reflexivity.
Qed.

Lemma sort_insert_default_sorted (x : string) (l : list string) :
  StronglySorted string_lt l -> ~ In x l ->
  StronglySorted string_lt (sort_insert default_compare x l).
Proof.
  induction l as [|y l IH]; intros Hs Hn; cbn.
  - constructor; constructor.
  - rewrite default_compare_positive.
    inversion Hs as [|y' l' Hs' Hall]; subst.
    destruct (String.ltb y x) eqn:E.
    + constructor.
      * apply IH; [exact Hs' | intro H; apply Hn; right; exact H].
      * apply Forall_forall. intros z Hz.
        apply (Permutation_in _ (sort_insert_perm default_compare x l)) in Hz.
        destruct Hz as [<- | Hz]; [exact E|].
        rewrite Forall_forall in Hall. apply Hall, Hz.
    + assert (Hxy : string_lt x y).
      { destruct (string_lt_total x y) as [H | [H | H]]; [exact H | |].
        - exfalso. apply Hn. left. symmetry. exact H.
        - unfold string_lt in H. congruence. }
      constructor; [exact Hs|].
      constructor; [exact Hxy|].
      rewrite Forall_forall in Hall |- *. intros z Hz.
      eapply string_lt_trans; [exact Hxy | apply Hall, Hz].
Qed.

Lemma sort_default_sorted (l : list string) :
  NoDup l -> StronglySorted string_lt (sort default_compare l).
Proof.
  induction 1 as [|x l Hn Hnd IH]; cbn; [constructor|].
  apply sort_insert_default_sorted; [exact IH|].
  intro H. apply Hn. apply sort_In in H. exact H.
Qed.

Lemma strictly_sorted_NoDup (l : list string) :
  StronglySorted string_lt l -> NoDup l.
Proof.
  induction 1 as [|x l Hs IH Hall]; constructor; [|exact IH].
  intro Hin. rewrite Forall_forall in Hall.
  exact (string_lt_irrefl x (Hall x Hin)).
Qed.

(** ** The list of genres *)

Lemma existsb_string_In (x : string) (l : list string) :
  existsb (String.eqb x) l = true <-> In x l.
Proof.
  rewrite existsb_exists. split.
  - intros [y [Hin Hy]]. apply String.eqb_eq in Hy. subst y. exact Hin.
  - intro Hin. exists x. split; [exact Hin | apply String.eqb_refl].
Qed.

Lemma Set_values_from (l seen : list string) :
  NoDup seen ->
  NoDup (fold_left Set_add l seen) /\
  forall x, In x (fold_left Set_add l seen) <-> In x seen \/ In x l.
Proof.
  revert seen. induction l as [|y l IH]; intros seen Hnd; cbn.
  - split; [exact Hnd | intro x; tauto].
  - unfold Set_add at 2 4. destruct (existsb (String.eqb y) seen) eqn:E.
    + destruct (IH seen Hnd) as [H1 H2]. split; [exact H1|].
      intro x. rewrite H2. apply existsb_string_In in E.
      split; [tauto|]. intros [H | [<- | H]]; auto.
    + assert (Hy : ~ In y seen).
      { intro H. apply existsb_string_In in H. congruence. }
      assert (Hnd' : NoDup (seen ++ [y])).
      { apply NoDup_app; [exact Hnd | constructor; [intros [] | constructor] |].
        intros a Ha [<- | []]. exact (Hy Ha). }
      destruct (IH _ Hnd') as [H1 H2]. split; [exact H1|].
      intro x. rewrite H2, in_app_iff. cbn. tauto.
Qed.

Lemma Set_values_NoDup (l : list string) : NoDup (Set_values l).
Proof. apply Set_values_from. constructor. Qed.

Lemma Set_values_In (x : string) (l : list string) : In x (Set_values l) <-> In x l.
Proof.
  unfold Set_values.
  destruct (Set_values_from l [] (NoDup_nil _)) as [_ H].
  rewrite H. cbn. tauto.
Qed.

Lemma keep_truthy_In (g : string) (l : list (option string)) :
  In g (keep_truthy l) <-> g <> EmptyString /\ In (Some g) l.
Proof.
  unfold keep_truthy. rewrite in_flat_map. split.
  - intros [[[|c s]|] [Hin Hg]]; cbn in Hg; try contradiction.
    destruct Hg as [<- | []]. split; [discriminate | exact Hin].
  - intros [Hne Hin]. exists (Some g). split; [exact Hin|].
    destruct g; [contradiction | left; reflexivity].
Qed.

Example genres_scenario : genres [dune; her; untitled; dune] = ["All"; "Drama"; "Sci-Fi"].
Proof. reflexivity. Qed.

(** C7, as stated, fails: a catalog may hold a movie whose genre is the
    string ["All"]; the sentinel is put in front of it and the list has
    ["All"] twice. *)
Lemma genres_sentinel_twice :
  genres [all_about_eve; her] = ["All"; "All"; "Drama"] /\
  ~ NoDup (genres [all_about_eve; her]).
Proof.
  split; [reflexivity|].
  intro H. inversion H as [|x l Hn _]; subst. apply Hn. left. reflexivity.
Qed.

(** C7 (amended): for every catalog the list is ["All"] followed by the
    distinct non-empty genre values of its movies in strictly ascending
    order of code units.  The first element is always ["All"], the
    genres after it have no duplicates, and the whole list has none
    exactly when no movie has the genre ["All"]. *)
Theorem genres_sentinel_then_sorted (movies : list Movie) :
  exists tail,
    genres movies = "All" :: tail /\
    StronglySorted string_lt tail /\
    NoDup tail /\
    (forall g, In g tail <->
               g <> EmptyString /\ exists movie, In movie movies /\ genre movie = Some g) /\
    (NoDup (genres movies) <->
     forall movie, In movie movies -> genre movie <> Some "All").
Proof.
  exists (sort default_compare (Set_values (keep_truthy (map genre movies)))).
  assert (Hs : StronglySorted string_lt
                 (sort default_compare (Set_values (keep_truthy (map genre movies))))).
  { apply sort_default_sorted, Set_values_NoDup. }
  assert (Hin : forall g,
             In g (sort default_compare (Set_values (keep_truthy (map genre movies)))) <->
             g <> EmptyString /\ exists movie, In movie movies /\ genre movie = Some g).
  { intro g. rewrite sort_In, Set_values_In, keep_truthy_In, in_map_iff.
    split; intros [Hne [movie H]]; (split; [exact Hne|]); exists movie; tauto. }
  split; [reflexivity|]. split; [exact Hs|].
  split; [apply strictly_sorted_NoDup, Hs|]. split; [exact Hin|].
  unfold genres. split.
  - intros Hnd movie Hm Hg. inversion Hnd as [|x l Hn _]; subst.
    apply Hn, Hin. split; [discriminate | exists movie; tauto].
  - intro Hall. constructor; [|apply strictly_sorted_NoDup, Hs].
    intro H. apply Hin in H. destruct H as [_ [movie [Hm Hg]]].
    exact (Hall movie Hm Hg).
Qed.

(** ** Search in strings *)

Lemma prefix_spec (p s : string) :
  prefix p s = true <-> exists rest, s = p ++ rest.
Proof.
  revert s. induction p as [|a p IH]; intro s.
  - destruct s; cbn; split; eauto.
  - destruct s as [|b s]; cbn.
    + split; [discriminate | intros [rest H]; discriminate H].
    + destruct (ascii_dec a b) as [<- | Hne].
      * rewrite IH. split; intros [rest H]; exists rest.
        -- rewrite H. reflexivity.
        -- injection H as H. exact H.
      * split; [discriminate|]. intros [rest H]. injection H as H1 _.
        congruence.
Qed.

Lemma includes_unfold (s sub : string) :
  includes s sub =
  if prefix sub s then true
  else match s with
       | EmptyString => false
       | String _ s' => includes s' sub
       end.
Proof. destruct s; reflexivity. Qed.

Lemma includes_spec (s sub : string) :
  includes s sub = true <-> exists pre post, s = pre ++ sub ++ post.
Proof.
  induction s as [|c s IH]; rewrite includes_unfold.
  - destruct (prefix sub EmptyString) eqn:E.
    + apply prefix_spec in E. destruct E as [rest E].
      split; [intros _; exists EmptyString, rest; exact E | reflexivity].
    + split; [discriminate|]. intros [pre [post H]].
      destruct pre; cbn in H; [|discriminate H].
      assert (P : prefix sub EmptyString = true) by (apply prefix_spec; eauto).
      congruence.
  - destruct (prefix sub (String c s)) eqn:E.
    + apply prefix_spec in E. destruct E as [rest E].
      split; [intros _; exists EmptyString, rest; exact E | reflexivity].
    + rewrite IH. split.
      * intros [pre [post H]]. exists (String c pre), post. cbn. rewrite H. reflexivity.
      * intros [pre [post H]]. destruct pre as [|c' pre]; cbn in H.
        -- assert (P : prefix sub (String c s) = true) by (apply prefix_spec; eauto).
           congruence.
        -- injection H as _ H. eauto.
Qed.

Lemma toLowerCase_app (a b : string) :
  toLowerCase (a ++ b) = toLowerCase a ++ toLowerCase b.
Proof.
  induction a as [|c a IH]; cbn; [reflexivity | rewrite IH; reflexivity].
Qed.

(** A split of the lowered string comes from a split of the string. *)
Lemma toLowerCase_split (t a b : string) :
  toLowerCase t = a ++ b ->
  exists t1 t2, t = t1 ++ t2 /\ toLowerCase t1 = a /\ toLowerCase t2 = b.
Proof.
  revert t. induction a as [|c a IH]; intros t H; cbn in H.
  - exists EmptyString, t. auto.
  - destruct t as [|d t]; cbn in H; [discriminate H|].
    injection H as Hc Ht. destruct (IH t Ht) as [t1 [t2 [E [E1 E2]]]].
    exists (String d t1), t2. cbn. rewrite E, E1, Hc. auto.
Qed.

Lemma eq_ignoring_case_iff (a b : string) :
  eq_ignoring_case a b <-> toLowerCase a = toLowerCase b.
Proof.
  split.
  - induction 1 as [|c1 c2 s1 s2 Hc _ IH]; cbn; [reflexivity|].
    rewrite Hc, IH. reflexivity.
  - revert b. induction a as [|c a IH]; intros [|d b] H; cbn in H;
      try discriminate H; [constructor|].
    injection H as Hc Hs. constructor; [exact Hc | apply IH, Hs].
Qed.

(** The test of the source is the search of the specification. *)
Lemma includes_ci_substring (t q : string) :
  includes (toLowerCase t) (toLowerCase q) = true <-> ci_substring q t.
Proof.
  rewrite includes_spec. unfold ci_substring. split.
  - intros [pre [post H]].
    destruct (toLowerCase_split t _ _ H) as [t1 [r [E [E1 Er]]]].
    destruct (toLowerCase_split r _ _ Er) as [t2 [t3 [E' [E2 E3]]]].
    exists t1, t2, t3. split; [rewrite E, E'; reflexivity|].
    apply eq_ignoring_case_iff, E2.
  - intros [pre [mid [post [E H]]]]. apply eq_ignoring_case_iff in H.
    exists (toLowerCase pre), (toLowerCase post).
    rewrite E, !toLowerCase_app, H. reflexivity.
Qed.

Lemma includes_empty (s : string) : includes s EmptyString = true.
Proof. destruct s; reflexivity. Qed.

Example includes_title : includes (toLowerCase "Dune") (toLowerCase "UN") = true.
Proof. reflexivity. Qed.

Example includes_not : includes (toLowerCase "Dune") (toLowerCase "den") = false.
Proof. reflexivity. Qed.

(** ** The filter *)

(** The test of the source is the search under the mapping of the
    host. *)
Lemma includes_occurs (lowerCase : string -> string) (t q : string) :
  includes (String_toLowerCase lowerCase t) (String_toLowerCase lowerCase q) = true
  <-> occurs_ignoring_case lowerCase q t.
Proof. apply includes_spec. Qed.

(** Under the folding of the ASCII letters, the search finds a part of
    the text that is the query up to case. *)
Lemma String_toLowerCase_ascii (s : string) :
  String_toLowerCase toLowerCase s = toLowerCase s.
Proof. destruct s; reflexivity. Qed.

Lemma occurs_ignoring_case_ascii (q t : string) :
  occurs_ignoring_case toLowerCase q t <-> ci_substring q t.
Proof.
  rewrite <- includes_occurs, !String_toLowerCase_ascii.
  apply includes_ci_substring.
Qed.

Lemma matchesSearch_sound
    (lowerCase : string -> string) (searchTerm : string) (movie : Movie) :
  matchesSearch lowerCase searchTerm movie = true ->
  occurs_ignoring_case lowerCase searchTerm (title movie) \/
  exists d, description movie = Some d /\ occurs_ignoring_case lowerCase searchTerm d.
Proof.
  unfold matchesSearch. intro H. apply orb_true_iff in H.
  destruct H as [H | H].
  - left. apply includes_occurs, H.
  - right. destruct (description movie) as [[|c d]|]; try discriminate H.
    exists (String c d). split; [reflexivity | apply includes_occurs, H].
Qed.

Lemma matchesSearch_empty (lowerCase : string -> string) (movie : Movie) :
  matchesSearch lowerCase EmptyString movie = true.
Proof.
  unfold matchesSearch. cbn [String_toLowerCase]. rewrite includes_empty. reflexivity.
Qed.

Lemma matchesGenre_exact (selectedGenre : string) (movie : Movie) :
  selectedGenre <> "All" ->
  matchesGenre selectedGenre movie = true -> genre movie = Some selectedGenre.
Proof.
  intros Hne. unfold matchesGenre.
  apply String.eqb_neq in Hne. rewrite Hne. cbn.
  destruct (genre movie) as [g|]; [|discriminate].
  intro H. apply String.eqb_eq in H. rewrite H. reflexivity.
Qed.

Lemma filteredAndSortedMovies_In
    (lowerCase : string -> string) (localeCompare : string -> string -> number)
    (movies : list Movie) (searchTerm selectedGenre sortBy : string) (movie : Movie) :
  In movie (filteredAndSortedMovies lowerCase localeCompare movies searchTerm selectedGenre sortBy)
  <-> In movie movies /\ matchesSearch lowerCase searchTerm movie = true
      /\ matchesGenre selectedGenre movie = true.
Proof.
  unfold filteredAndSortedMovies, filterMovies.
  rewrite sort_In, filter_In, andb_true_iff. reflexivity.
Qed.

(** For the examples, a collation and a lower-case mapping that can be
    computed: the order of code units and the folding of the ASCII
    letters. *)
Example scenario_by_title :
  map title (filteredAndSortedMovies toLowerCase default_compare [her; dune]
               EmptyString "All" "title")
  = ["Dune"; "Her"].
Proof. reflexivity. Qed.

Example search_in_description :
  map title (filteredAndSortedMovies toLowerCase default_compare [dune; her; untitled]
               "dune" "All" "title")
  = ["Dune"; "Rough Cut"].
Proof. reflexivity. Qed.

(** C5: whatever the catalog, the query, the sort key, the collation and
    the lower-case mapping of the host, every movie of the display list
    for genre ["All"] has the query as a case-insensitive substring of
    its title or of its description (the lower case of the query occurs
    in the lower case of the text); with the empty query every movie of
    the catalog passes; and for a genre other than ["All"] every movie of
    the display list for the empty query has exactly that genre. *)
Theorem filteredAndSortedMovies_filter
    (lowerCase : string -> string) (localeCompare : string -> string -> number)
    (movies : list Movie) (q sortBy : string) (movie : Movie) :
  (In movie (filteredAndSortedMovies lowerCase localeCompare movies q "All" sortBy) ->
   occurs_ignoring_case lowerCase q (title movie) \/
   exists d, description movie = Some d /\ occurs_ignoring_case lowerCase q d) /\
  (In movie movies ->
   In movie (filteredAndSortedMovies lowerCase localeCompare movies EmptyString "All" sortBy)) /\
  (forall g, g <> "All" ->
   In movie (filteredAndSortedMovies lowerCase localeCompare movies EmptyString g sortBy) ->
   genre movie = Some g).
Proof.
  split; [|split].
  - intro H. apply filteredAndSortedMovies_In in H.
    apply matchesSearch_sound. tauto.
  - intro H. apply filteredAndSortedMovies_In.
    split; [exact H|]. split; [apply matchesSearch_empty | reflexivity].
  - intros g Hg H. apply filteredAndSortedMovies_In in H.
    apply matchesGenre_exact; tauto.
Qed.

Lemma filteredAndSortedMovies_filter_samples :
  (occurs_ignoring_case toLowerCase "dune" (title untitled) \/
   exists d, description untitled = Some d /\
             occurs_ignoring_case toLowerCase "dune" d) /\
  In her (filteredAndSortedMovies toLowerCase default_compare [dune; her; untitled]
            EmptyString "All" "rating") /\
  genre her = Some "Drama".
Proof.
  split; [|split].
  - apply (proj1 (filteredAndSortedMovies_filter
                    toLowerCase default_compare [dune; her; untitled] "dune" "year" untitled)).
    cbn. right. left. reflexivity.
  - apply (proj1 (proj2 (filteredAndSortedMovies_filter
                    toLowerCase default_compare [dune; her; untitled] EmptyString "rating" her))).
    cbn. right. left. reflexivity.
  - apply (proj2 (proj2 (filteredAndSortedMovies_filter
                    toLowerCase default_compare [dune; her; untitled] EmptyString "title" her)) "Drama").
    + discriminate.
    + cbn. left. reflexivity.
Defined.

(** ** Binary64 arithmetic: the sign of a difference *)

Lemma digits2_pos_bounds (m : positive) :
  2 ^ (Zpos (digits2_pos m) - 1) <= Zpos m < 2 ^ Zpos (digits2_pos m).
Proof.
  induction m as [p IH | p IH |]; cbn [digits2_pos];
    [rewrite (Pos2Z.inj_xI p) | rewrite (Pos2Z.inj_xO p) | change (1 <= 1 < 2); lia];
    rewrite Pos2Z.inj_succ;
    replace (Z.succ (Zpos (digits2_pos p)) - 1) with (Z.succ (Zpos (digits2_pos p) - 1)) by lia;
    rewrite !Z.pow_succ_r by lia; lia.
Qed.

Lemma iter_xO_Z (m d : positive) : Zpos (Pos.iter xO m d) = Zpos m * 2 ^ Zpos d.
Proof.
  induction d as [|d IH] using Pos.peano_ind.
  - cbn. lia.
  - rewrite Pos.iter_succ, (Pos2Z.inj_xO (Pos.iter xO m d)), IH.
    rewrite Pos2Z.inj_succ, Z.pow_succ_r by lia. lia.
Qed.

Lemma shr_1_m (r : shr_record) :
  0 <= shr_m r -> shr_m (shr_1 r) = shr_m r / 2.
Proof.
  destruct r as [m b s]. cbn [shr_m]. intro H.
  destruct m as [|[p|p|]|p]; cbn [shr_1 shr_m]; try reflexivity; try lia.
  - rewrite (Pos2Z.inj_xI p). apply Z.div_unique with (r := 1); lia.
  - rewrite (Pos2Z.inj_xO p). apply Z.div_unique with (r := 0); lia.
Qed.

Lemma iter_pos_shr_1 (p : positive) (r : shr_record) :
  0 <= shr_m r -> shr_m (iter_pos shr_1 p r) = shr_m r / 2 ^ Zpos p.
Proof.
  revert r. induction p as [p IH | p IH |]; intros r H; cbn [iter_pos].
  - assert (H1 : 0 <= shr_m (shr_1 r)).
    { rewrite shr_1_m by exact H. apply Z.div_pos; lia. }
    assert (H2 : 0 <= shr_m (iter_pos shr_1 p (shr_1 r))).
    { rewrite IH by exact H1. apply Z.div_pos; [exact H1 | lia]. }
    rewrite IH by exact H2. rewrite IH by exact H1. rewrite shr_1_m by exact H.
    rewrite !Z.div_div by lia. f_equal.
    rewrite (Pos2Z.inj_xI p), Z.pow_add_r, Z.pow_mul_r by lia.
    change (2 ^ 2) with 4. change (2 ^ 1) with 2.
    replace 4 with (2 * 2) by lia. rewrite Z.pow_mul_l. lia.
  - assert (H1 : 0 <= shr_m (iter_pos shr_1 p r)).
    { rewrite IH by exact H. apply Z.div_pos; [exact H | lia]. }
    rewrite IH by exact H1. rewrite IH by exact H.
    rewrite Z.div_div by lia. f_equal.
    rewrite (Pos2Z.inj_xO p), Z.pow_mul_r by lia.
    change (2 ^ 2) with 4. replace 4 with (2 * 2) by lia.
    rewrite Z.pow_mul_l. lia.
  - rewrite shr_1_m by exact H. reflexivity.
Qed.

Lemma shr_record_of_loc_m (m : Z) (l : location) : shr_m (shr_record_of_loc m l) = m.
Proof. destruct l as [|[| |]]; reflexivity. Qed.

(** Rounding a positive mantissa whose exponent is not below the least
    one leaves a positive mantissa: nothing is rounded down to zero. *)
Lemma shr_fexp_positive (m e : Z) (l : location) :
  0 < m -> -1074 <= e ->
  0 < shr_m (fst (shr_fexp prec emax m e l)) /\
  -1074 <= snd (shr_fexp prec emax m e l).
Proof.
  intros Hm He. unfold shr_fexp, shr.
  destruct m as [|p|p]; try lia. cbn [Zdigits2].
  pose proof (digits2_pos_bounds p) as Hd.
  set (d := Zpos (digits2_pos p)) in *.
  assert (Hn : fexp prec emax (d + e) - e <= d - 1).
  { unfold fexp, SpecFloat.emin, prec, emax. lia. }
  destruct (fexp prec emax (d + e) - e) as [|n|n] eqn:E; cbn [fst snd];
    rewrite ?shr_record_of_loc_m; try lia.
  rewrite iter_pos_shr_1 by (rewrite shr_record_of_loc_m; lia).
  rewrite shr_record_of_loc_m. split; [|lia].
  apply Z.div_str_pos. split; [lia|].
  apply Z.le_trans with (2 ^ (d - 1)); [|lia].
  apply Z.pow_le_mono_r; lia.
Qed.

Lemma round_nearest_even_positive (m : Z) (l : location) :
  0 < m -> 0 < round_nearest_even m l.
Proof.
  intro H. destruct l as [|[| |]]; cbn; try lia.
  destruct (Z.even m); lia.
Qed.

Lemma binary_round_aux_sign (s : bool) (m e : Z) (l : location) :
  0 < m -> -1074 <= e ->
  (exists m' e', binary_round_aux prec emax s m e l = S754_finite s m' e') \/
  binary_round_aux prec emax s m e l = S754_infinity s.
Proof.
  intros Hm He. unfold binary_round_aux.
  destruct (shr_fexp_positive m e l Hm He) as [H1 H2].
  destruct (shr_fexp prec emax m e l) as [mrs' e'] eqn:E1. cbn [fst snd] in H1, H2.
  pose proof (round_nearest_even_positive _ (loc_of_shr_record mrs') H1) as Hr.
  destruct (shr_fexp_positive _ e' loc_Exact Hr H2) as [H3 _].
  destruct (shr_fexp prec emax _ e' loc_Exact) as [mrs'' e''] eqn:E2. cbn [fst] in H3.
  destruct (shr_m mrs'') as [|q|q]; try lia.
  destruct (e'' <=? emax - prec); [left; eauto | right; reflexivity].
Qed.

Lemma shl_align_exponent (m : positive) (e e' : Z) :
  -1074 <= e -> -1074 <= e' -> -1074 <= snd (shl_align m e e').
Proof.
  intros H H'. unfold shl_align. destruct (e' - e); cbn; lia.
Qed.

Lemma binary_round_sign (s : bool) (m : positive) (e : Z) :
  -1074 <= e ->
  (exists m' e', binary_round prec emax s m e = S754_finite s m' e') \/
  binary_round prec emax s m e = S754_infinity s.
Proof.
  intro He. unfold binary_round.
  assert (Hf : -1074 <= fexp prec emax (Zpos (digits2_pos m) + e)).
  { unfold fexp, SpecFloat.emin, prec, emax. lia. }
  pose proof (shl_align_exponent m e _ He Hf) as Hz.
  destruct (shl_align m e (fexp prec emax (Zpos (digits2_pos m) + e))) as [mz ez].
  cbn [snd] in Hz. apply binary_round_aux_sign; [lia | exact Hz].
Qed.

(** The mantissa aligned to a lower exponent. *)
Lemma shl_align_value (m : positive) (e e' : Z) :
  e' <= e ->
  Zpos (fst (shl_align m e e')) = Zpos m * 2 ^ (e - e').
Proof.
  intro H. unfold shl_align. destruct (e' - e) as [|d|d] eqn:E; cbn [fst].
  - replace (e - e') with 0 by lia. cbn. lia.
  - lia.
  - rewrite iter_xO_Z. f_equal. f_equal. lia.
Qed.

(** What validity says of a finite number. *)
Lemma bounded_inv (m : positive) (e : Z) :
  bounded prec emax m e = true ->
  -1074 <= e <= 971 /\ Zpos m < 2 ^ 53 /\ (-1074 < e -> 2 ^ 52 <= Zpos m).
Proof.
  unfold bounded, canonical_mantissa, fexp, SpecFloat.emin, prec, emax.
  intro H. apply andb_true_iff in H. destruct H as [H1 H2].
  apply Z.eqb_eq in H1. apply Z.leb_le in H2.
  pose proof (digits2_pos_bounds m) as Hd.
  set (d := Zpos (digits2_pos m)) in *.
  assert (Hd53 : d <= 53) by lia.
  split; [lia|]. split.
  - apply Z.lt_le_trans with (2 ^ d); [lia|]. apply Z.pow_le_mono_r; lia.
  - intro He. assert (d = 53) by lia.
    replace 52 with (d - 1) by lia. lia.
Qed.

Lemma pow2_positive (k : Z) : 0 <= k -> 0 < 2 ^ k.
Proof. intro H. apply Z.pow_pos_nonneg; lia. Qed.

Lemma scaled_finite_bounds (m : positive) (e : Z) :
  bounded prec emax m e = true ->
  0 < Zpos m * 2 ^ (e + 1074) < 2 ^ 2100.
Proof.
  intro H. destruct (bounded_inv m e H) as [He [Hm _]].
  pose proof (pow2_positive (e + 1074) ltac:(lia)) as Hp.
  split; [lia|].
  apply Z.lt_le_trans with (2 ^ 53 * 2 ^ (e + 1074)).
  - apply Z.mul_lt_mono_pos_r; assumption.
  - rewrite <- Z.pow_add_r by lia. apply Z.pow_le_mono_r; lia.
Qed.

Lemma scaled_lt_exponent (m1 m2 : positive) (e1 e2 : Z) :
  bounded prec emax m1 e1 = true -> bounded prec emax m2 e2 = true ->
  e1 < e2 ->
  Zpos m1 * 2 ^ (e1 + 1074) < Zpos m2 * 2 ^ (e2 + 1074).
Proof.
  intros H1 H2 Hlt.
  destruct (bounded_inv m1 e1 H1) as [He1 [Hm1 _]].
  destruct (bounded_inv m2 e2 H2) as [He2 [_ Hm2]].
  specialize (Hm2 ltac:(lia)).
  pose proof (pow2_positive (e1 + 1074) ltac:(lia)) as Hp1.
  pose proof (pow2_positive (e2 + 1074) ltac:(lia)) as Hp2.
  apply Z.lt_le_trans with (2 ^ 53 * 2 ^ (e1 + 1074)).
  - apply Z.mul_lt_mono_pos_r; assumption.
  - apply Z.le_trans with (2 ^ 52 * 2 ^ (e2 + 1074)).
    + rewrite <- !Z.pow_add_r by lia. apply Z.pow_le_mono_r; lia.
    + apply Z.mul_le_mono_nonneg_r; lia.
Qed.

Lemma scaled_compare_finite (m1 m2 : positive) (e1 e2 : Z) :
  bounded prec emax m1 e1 = true -> bounded prec emax m2 e2 = true ->
  match e1 ?= e2 with
  | Lt => Lt
  | Gt => Gt
  | Eq => Pos.compare_cont Eq m1 m2
  end = (Zpos m1 * 2 ^ (e1 + 1074) ?= Zpos m2 * 2 ^ (e2 + 1074)).
Proof.
  intros H1 H2. destruct (Z.compare_spec e1 e2) as [E | L | G].
  - subst e2. destruct (bounded_inv m1 e1 H1) as [He _].
    pose proof (pow2_positive (e1 + 1074) ltac:(lia)) as Hp.
    change (Pos.compare_cont Eq m1 m2) with (Pos.compare m1 m2).
    symmetry. destruct (Pos.compare_spec m1 m2) as [E | L | G].
    + subst m2. apply Z.compare_refl.
    + apply Z.compare_lt_iff, Z.mul_lt_mono_pos_r; [exact Hp | lia].
    + apply Z.compare_gt_iff, Z.mul_lt_mono_pos_r; [exact Hp | lia].
  - symmetry. apply Z.compare_lt_iff. apply scaled_lt_exponent; assumption.
  - symmetry. apply Z.compare_gt_iff. apply scaled_lt_exponent; assumption.
Qed.

(** On numbers, the comparison of the library is the comparison of the
    scaled values. *)
Lemma SFcompare_scaled (x y : number) :
  valid_number x = true -> valid_number y = true ->
  is_nan x = false -> is_nan y = false ->
  SFcompare x y = Some (scaled x ?= scaled y).
Proof.
  unfold valid_number.
  destruct x as [sx | sx | | sx mx ex]; destruct y as [sy | sy | | sy my ey];
    cbn [valid_binary is_nan]; intros Vx Vy Nx Ny; try discriminate;
    try pose proof (scaled_finite_bounds mx ex Vx) as Bx;
    try pose proof (scaled_finite_bounds my ey Vy) as By;
    pose proof (pow2_positive 2100 ltac:(lia)) as Hinf;
    cbn [SFcompare scaled]; f_equal; symmetry.
  - destruct sy; cbn [cond_Zopp]; [apply Z.compare_gt_iff | apply Z.compare_lt_iff]; lia.
  - destruct sy; cbn [cond_Zopp]; [apply Z.compare_gt_iff | apply Z.compare_lt_iff]; lia.
  - destruct sx; cbn [cond_Zopp]; [apply Z.compare_lt_iff | apply Z.compare_gt_iff]; lia.
  - destruct sx, sy; cbn [cond_Zopp];
      [apply Z.compare_eq_iff | apply Z.compare_lt_iff
       | apply Z.compare_gt_iff | apply Z.compare_eq_iff]; lia.
  - destruct sx, sy; cbn [cond_Zopp];
      [apply Z.compare_lt_iff | apply Z.compare_lt_iff
       | apply Z.compare_gt_iff | apply Z.compare_gt_iff]; lia.
  - destruct sx; cbn [cond_Zopp]; [apply Z.compare_lt_iff | apply Z.compare_gt_iff]; lia.
  - destruct sy, sx; cbn [cond_Zopp];
      [apply Z.compare_gt_iff | apply Z.compare_gt_iff
       | apply Z.compare_lt_iff | apply Z.compare_lt_iff]; lia.
  - destruct sx, sy; cbn [cond_Zopp].
    + rewrite Z.compare_opp, <- (scaled_compare_finite my mx ey ex Vy Vx).
      rewrite (Z.compare_antisym ex ey), (Pos.compare_cont_antisym mx my Eq).
      destruct (ex ?= ey); reflexivity.
    + apply Z.compare_lt_iff; lia.
    + apply Z.compare_gt_iff; lia.
    + symmetry. apply scaled_compare_finite; assumption.
Qed.

Lemma is_positive_sign (s : bool) (x : number) :
  (exists m e, x = S754_finite s m e) \/ x = S754_infinity s ->
  is_nan x = false /\ is_positive x = negb s.
Proof.
  intros [[m [e ->]] | ->]; destruct s; split; reflexivity.
Qed.

(** The difference of two finite numbers, before rounding, in the same
    units as [scaled]. *)
Lemma aligned_difference (sx sy : bool) (mx my : positive) (ex ey : Z) :
  -1074 <= ex -> -1074 <= ey ->
  (cond_Zopp sx (Zpos (fst (shl_align mx ex (Z.min ex ey)))) -
   cond_Zopp sy (Zpos (fst (shl_align my ey (Z.min ex ey))))) *
  2 ^ (Z.min ex ey + 1074) =
  scaled (S754_finite sx mx ex) - scaled (S754_finite sy my ey).
Proof.
  intros Hx Hy. cbn [scaled].
  rewrite !shl_align_value by lia.
  assert (Ex : 2 ^ (ex + 1074) = 2 ^ (ex - Z.min ex ey) * 2 ^ (Z.min ex ey + 1074)).
  { rewrite <- Z.pow_add_r by lia. f_equal. lia. }
  assert (Ey : 2 ^ (ey + 1074) = 2 ^ (ey - Z.min ex ey) * 2 ^ (Z.min ex ey + 1074)).
  { rewrite <- Z.pow_add_r by lia. f_equal. lia. }
  rewrite Ex, Ey.
  destruct sx, sy; cbn [cond_Zopp]; ring.
Qed.

(** [sort] reads [x - y] as "x after y" exactly when [y] is below [x]:
    the rounded difference of two numbers has the sign of the exact
    one, and is NaN only for two equal infinities. *)
Lemma number_sub_positive (x y : number) :
  valid_number x = true -> valid_number y = true ->
  is_nan x = false -> is_nan y = false ->
  is_positive (if is_nan (number_sub x y) then zero else number_sub x y)
  = (scaled y <? scaled x).
Proof.
  unfold valid_number, number_sub.
  destruct x as [sx | sx | | sx mx ex]; destruct y as [sy | sy | | sy my ey];
    cbn [valid_binary is_nan]; intros Vx Vy Nx Ny; try discriminate;
    try pose proof (scaled_finite_bounds mx ex Vx) as Bx;
    try pose proof (scaled_finite_bounds my ey Vy) as By;
    pose proof (pow2_positive 2100 ltac:(lia)) as Hinf.
  - destruct sx, sy; reflexivity.
  - destruct sy; cbn [SFsub negb is_nan is_positive scaled cond_Zopp];
      symmetry; [apply Z.ltb_lt | apply Z.ltb_ge]; cbn; lia.
  - destruct sy; cbn [SFsub negb is_nan scaled cond_Zopp];
      symmetry; [apply Z.ltb_lt | apply Z.ltb_ge]; lia.
  - destruct sx; cbn [SFsub is_nan scaled cond_Zopp];
      symmetry; [apply Z.ltb_ge | apply Z.ltb_lt]; lia.
  - destruct sx, sy; cbn [SFsub is_nan scaled cond_Zopp];
      symmetry; [apply Z.ltb_ge | apply Z.ltb_ge | apply Z.ltb_lt | apply Z.ltb_ge]; lia.
  - destruct sx, sy; cbn [SFsub is_nan scaled cond_Zopp];
      symmetry; [apply Z.ltb_ge | apply Z.ltb_ge | apply Z.ltb_lt | apply Z.ltb_lt]; lia.
  - destruct sx; cbn [SFsub is_nan scaled cond_Zopp];
      symmetry; [apply Z.ltb_ge | apply Z.ltb_lt]; lia.
  - destruct sy, sx; cbn [SFsub negb is_nan scaled cond_Zopp];
      symmetry; [apply Z.ltb_lt | apply Z.ltb_lt | apply Z.ltb_ge | apply Z.ltb_ge]; lia.
  - destruct (bounded_inv mx ex Vx) as [Hex _].
    destruct (bounded_inv my ey Vy) as [Hey _].
    pose proof (aligned_difference sx sy mx my ex ey ltac:(lia) ltac:(lia)) as HD.
    pose proof (pow2_positive (Z.min ex ey + 1074) ltac:(lia)) as Hp.
    cbn [SFsub].
    set (D := cond_Zopp sx (Zpos (fst (shl_align mx ex (Z.min ex ey)))) -
              cond_Zopp sy (Zpos (fst (shl_align my ey (Z.min ex ey))))) in *.
    destruct D as [|p|p] eqn:ED; cbn [binary_normalize].
    + symmetry. apply Z.ltb_ge. lia.
    + destruct (is_positive_sign false _
                  (binary_round_sign false p (Z.min ex ey) ltac:(lia))) as [Hn Hpos].
      rewrite Hn, Hpos. symmetry. apply Z.ltb_lt. nia.
    + destruct (is_positive_sign true _
                  (binary_round_sign true p (Z.min ex ey) ltac:(lia))) as [Hn Hpos].
      rewrite Hn, Hpos. symmetry. apply Z.ltb_ge. nia.
Qed.

(** ** Sorting by a key, highest first *)

Section SortByKey.
Context {A : Type}.
Variable comparefn : A -> A -> number.
Variable key : A -> Z.
Variable P : A -> Prop.

(** On the elements of interest the comparison asks to move [x] after
    [y] exactly when the key of [x] is the lower one. *)
Hypothesis comparefn_key :
  forall x y, P x -> P y ->
    is_positive (SortCompare comparefn x y) = (key x <? key y).

Lemma sort_insert_descending (x : A) (l : list A) :
  P x -> Forall P l ->
  StronglySorted (descending key) l ->
  StronglySorted (descending key) (sort_insert comparefn x l).
Proof.
  intros Px. induction l as [|y l IH]; intros HP Hs; cbn.
  - constructor; constructor.
  - inversion HP as [|y' l' Py HPl]; subst.
    inversion Hs as [|y' l' Hs' Hall]; subst.
    rewrite (comparefn_key x y Px Py).
    destruct (key x <? key y) eqn:E.
    + apply Z.ltb_lt in E. constructor; [apply IH; assumption|].
      apply Forall_forall. intros z Hz.
      apply (Permutation_in _ (sort_insert_perm comparefn x l)) in Hz.
      destruct Hz as [<- | Hz]; [unfold descending; lia|].
      rewrite Forall_forall in Hall. apply Hall, Hz.
    + apply Z.ltb_ge in E. constructor; [exact Hs|].
      constructor; [exact E|].
      rewrite Forall_forall in Hall |- *. intros z Hz.
      specialize (Hall z Hz). unfold descending in *. lia.
Qed.

Lemma sort_Forall (l : list A) : Forall P l -> Forall P (sort comparefn l).
Proof.
  intro H. eapply Permutation_Forall; [|exact H].
  apply Permutation_sym, sort_perm.
Qed.

Lemma sort_descending (l : list A) :
  Forall P l -> StronglySorted (descending key) (sort comparefn l).
Proof.
  induction 1 as [|x l Px HP IH]; cbn; [constructor|].
  apply sort_insert_descending; [exact Px | apply sort_Forall, HP | exact IH].
Qed.

(** Insertion does not change the order among the elements of one key:
    the elements [x] is moved past have a higher key. *)
Lemma sort_insert_filter_key (k : Z) (x : A) (l : list A) :
  P x -> Forall P l ->
  filter (fun a => key a =? k) (sort_insert comparefn x l) =
  filter (fun a => key a =? k) (x :: l).
Proof.
  intros Px. induction l as [|y l IH]; intro HP; [reflexivity|].
  inversion HP as [|y' l' Py HPl]; subst.
  cbn [sort_insert]. rewrite (comparefn_key x y Px Py).
  destruct (key x <? key y) eqn:E; [|reflexivity].
  apply Z.ltb_lt in E.
  cbn [filter]. rewrite (IH HPl). cbn [filter].
  destruct (key y =? k) eqn:Ey; destruct (key x =? k) eqn:Ex; try reflexivity.
  apply Z.eqb_eq in Ey, Ex. lia.
Qed.

Lemma sort_filter_key (k : Z) (l : list A) :
  Forall P l ->
  filter (fun a => key a =? k) (sort comparefn l) = filter (fun a => key a =? k) l.
Proof.
  induction 1 as [|x l Px HP IH]; [reflexivity|].
  cbn [sort fold_right].
  change (fold_right (sort_insert comparefn) [] l) with (sort comparefn l).
  rewrite sort_insert_filter_key by (try exact Px; apply sort_Forall, HP).
  cbn [filter]. rewrite IH. reflexivity.
Qed.
End SortByKey.

Lemma StronglySorted_impl_In {A : Type} (R1 R2 : A -> A -> Prop) (l : list A) :
  (forall a b, In a l -> In b l -> R1 a b -> R2 a b) ->
  StronglySorted R1 l -> StronglySorted R2 l.
Proof.
  intros H Hs. induction Hs as [|x l Hs IH Hall]; constructor.
  - apply IH. intros a b Ha Hb. apply H; right; assumption.
  - rewrite Forall_forall in Hall |- *. intros b Hb.
    apply H; [left; reflexivity | right; exact Hb | apply Hall, Hb].
Qed.

Lemma filter_none {A : Type} (f : A -> bool) (l : list A) :
  (forall a, In a l -> f a = false) -> filter f l = [].
Proof.
  induction l as [|x l IH]; intro H; [reflexivity|].
  cbn. rewrite (H x (or_introl eq_refl)). apply IH.
  intros a Ha. apply H. right. exact Ha.
Qed.

(** ** The sort by rating *)

Lemma effective_rating_number (movie : Movie) :
  valid_rating movie = true ->
  valid_number (effective_rating movie) = true /\
  is_nan (effective_rating movie) = false.
Proof.
  unfold valid_rating, effective_rating, or_zero.
  destruct (rating movie) as [n|]; [|split; reflexivity].
  intro H. destruct n; cbn; split; try reflexivity; exact H.
Qed.

Lemma compare_rating_positive
    (localeCompare : string -> string -> number) (x y : Movie) :
  valid_rating x = true -> valid_rating y = true ->
  is_positive (SortCompare (compareMovies localeCompare "rating") x y)
  = (scaled (effective_rating x) <? scaled (effective_rating y)).
Proof.
  intros Hx Hy.
  destruct (effective_rating_number x Hx) as [Vx Nx].
  destruct (effective_rating_number y Hy) as [Vy Ny].
  unfold SortCompare, compareMovies. cbn [String.eqb Ascii.eqb Bool.eqb].
  apply (number_sub_positive (effective_rating y) (effective_rating x)); assumption.
Qed.

Lemma SFleb_scaled (x y : number) :
  valid_number x = true -> valid_number y = true ->
  is_nan x = false -> is_nan y = false ->
  SFleb x y = true <-> scaled x <= scaled y.
Proof.
  intros Vx Vy Nx Ny. unfold SFleb. rewrite (SFcompare_scaled x y Vx Vy Nx Ny).
  destruct (Z.compare_spec (scaled x) (scaled y)); split; intro; try lia; try reflexivity;
    discriminate.
Qed.

Lemma SFeqb_scaled (x y : number) :
  valid_number x = true -> valid_number y = true ->
  is_nan x = false -> is_nan y = false ->
  SFeqb x y = (scaled x =? scaled y).
Proof.
  intros Vx Vy Nx Ny. unfold SFeqb. rewrite (SFcompare_scaled x y Vx Vy Nx Ny).
  destruct (Z.compare_spec (scaled x) (scaled y)); symmetry;
    [apply Z.eqb_eq | apply Z.eqb_neq | apply Z.eqb_neq]; lia.
Qed.

(** Only a number equals a number: a pair of mantissa and exponent that
    is not in binary64 form equals no valid one. *)
Lemma SFeqb_invalid (x y : number) :
  valid_number x = true -> valid_number y = false -> SFeqb x y = false.
Proof.
  unfold valid_number. destruct y as [sy | sy | | sy my ey]; cbn [valid_binary];
    try discriminate.
  intros Vx Vy. destruct x as [sx | sx | | sx mx ex]; try (destruct sx, sy; reflexivity);
    try (destruct sy; reflexivity).
  cbn [valid_binary] in Vx. unfold SFeqb. cbn [SFcompare].
  destruct sx, sy; try reflexivity;
    destruct (Z.compare_spec ex ey) as [E | L | G]; try reflexivity;
    change (Pos.compare_cont Eq mx my) with (Pos.compare mx my);
    destruct (Pos.compare_spec mx my) as [E' | L' | G']; try reflexivity;
    subst; congruence.
Qed.

Lemma SFeqb_nan (x y : number) : is_nan y = true -> SFeqb x y = false.
Proof. destruct y; try discriminate. intros _. destruct x; reflexivity. Qed.

Example sort_by_rating_sample :
  map title (filteredAndSortedMovies toLowerCase default_compare
               [untitled; her; all_about_eve; dune] EmptyString "All" "rating")
  = ["All About Eve"; "Her"; "Dune"; "Rough Cut"].
Proof. vm_compute. reflexivity. Qed.

(** C6: for every catalog whose ratings are numbers, every query, genre
    and collation, the display list sorted by rating is the filtered list
    rearranged so that no movie is followed by one of a higher rating, a
    missing rating counting as 0; and the movies of any one rating come
    in the order they have in the filtered list. *)
Theorem sort_by_rating_stable
    (lowerCase : string -> string) (localeCompare : string -> string -> number)
    (movies : list Movie) (searchTerm selectedGenre : string) :
  Forall (fun movie => valid_rating movie = true) movies ->
  let filtered := filterMovies lowerCase movies searchTerm selectedGenre in
  let shown := filteredAndSortedMovies lowerCase localeCompare movies searchTerm selectedGenre "rating" in
  Permutation shown filtered /\
  StronglySorted rating_not_above shown /\
  forall r, with_rating r shown = with_rating r filtered.
Proof.
  intros Hvalid filtered shown.
  assert (Hf : Forall (fun movie => valid_rating movie = true) filtered).
  { apply Forall_forall. intros m Hm. apply filter_In in Hm.
    rewrite Forall_forall in Hvalid. apply Hvalid, Hm. }
  pose proof (compare_rating_positive localeCompare) as Hkey.
  split; [apply sort_perm|]. split.
  - apply StronglySorted_impl_In with
      (R1 := descending (fun m => scaled (effective_rating m))).
    + intros a b Ha Hb Hd.
      assert (Va : valid_rating a = true).
      { apply sort_In in Ha. rewrite Forall_forall in Hf. apply Hf, Ha. }
      assert (Vb : valid_rating b = true).
      { apply sort_In in Hb. rewrite Forall_forall in Hf. apply Hf, Hb. }
      destruct (effective_rating_number a Va) as [Va1 Va2].
      destruct (effective_rating_number b Vb) as [Vb1 Vb2].
      apply SFleb_scaled; assumption.
    + apply (sort_descending _ _ (fun m => valid_rating m = true) Hkey filtered Hf).
  - intro r. unfold with_rating.
    destruct (is_nan r) eqn:Nr.
    + rewrite !filter_none; [reflexivity | |]; intros a _; apply SFeqb_nan, Nr.
    + destruct (valid_number r) eqn:Vr.
      * pose proof (sort_filter_key _ _ (fun m => valid_rating m = true) Hkey
                      (scaled r) filtered Hf) as Hst.
        assert (Hs : Forall (fun movie => valid_rating movie = true) shown).
        { apply sort_Forall, Hf. }
        rewrite (filter_ext_in _ (fun m => scaled (effective_rating m) =? scaled r) shown).
        -- rewrite (filter_ext_in _ (fun m => scaled (effective_rating m) =? scaled r) filtered).
           ++ exact Hst.
           ++ intros a Ha. rewrite Forall_forall in Hf.
              destruct (effective_rating_number a (Hf a Ha)) as [Va Na].
              apply SFeqb_scaled; assumption.
        -- intros a Ha. rewrite Forall_forall in Hs.
           destruct (effective_rating_number a (Hs a Ha)) as [Va Na].
           apply SFeqb_scaled; assumption.
      * rewrite !filter_none; [reflexivity | |]; intros a Ha.
        -- rewrite Forall_forall in Hf.
           destruct (effective_rating_number a (Hf a Ha)) as [Va _].
           apply SFeqb_invalid; assumption.
        -- assert (Hs : Forall (fun movie => valid_rating movie = true) shown).
           { apply sort_Forall, Hf. }
           rewrite Forall_forall in Hs.
           destruct (effective_rating_number a (Hs a Ha)) as [Va _].
           apply SFeqb_invalid; assumption.
Qed.

Lemma sort_by_rating_stable_sample :
  let catalog := [untitled; her; all_about_eve; dune] in
  let filtered := filterMovies toLowerCase catalog EmptyString "All" in
  let shown := filteredAndSortedMovies toLowerCase default_compare catalog EmptyString "All" "rating" in
  Permutation shown filtered /\
  StronglySorted rating_not_above shown /\
  forall r, with_rating r shown = with_rating r filtered.
Proof.
  apply (sort_by_rating_stable toLowerCase default_compare
           [untitled; her; all_about_eve; dune] EmptyString "All").
  repeat constructor.
Defined.

(* ================================================================= *)
(** * Part III: further properties of the handlers and the views *)
(* ================================================================= *)

(** ** Messages *)

Lemma error_message_nonempty (err : AxiosError) (fallback : string) :
  fallback <> EmptyString -> error_message err fallback <> EmptyString.
Proof.
  intro H. unfold error_message.
  destruct (response_error err) as [[|c e]|]; try discriminate;
    destruct (response_detail err) as [[|c' d]|]; try discriminate; exact H.
Qed.

Lemma append_nonempty (a b : string) : a <> EmptyString -> (a ++ b)%string <> EmptyString.
Proof. destruct a; [contradiction | discriminate]. Qed.

Lemma recommendation_error_message_nonempty (recType : string) (err : AxiosError) :
  recommendation_error_message recType err <> EmptyString.
Proof.
  unfold recommendation_error_message.
  assert (H : error_message err "Failed to load recommendations. Please try again."
              <> EmptyString) by (apply error_message_nonempty; discriminate).
  destruct (recType =? "collaborative")%string; [|exact H].
  destruct (includes _ "tmdb"); [apply append_nonempty, H|].
  destruct (includes _ "no local movies match"); exact H.
Qed.

Lemma string_truthy_nonempty (s : string) :
  s <> EmptyString -> string_truthy (Some s) = true.
Proof. destruct s; [contradiction | reflexivity]. Qed.

(** X11: in collaborative mode the message of a rejected recommendation
    request is the backend message followed by the TMDb note when that
    message contains "tmdb" in any letter case, and the backend message
    alone otherwise; in any other mode it is the backend message. *)
Theorem recommendation_error_message_note (recType : string) (err : AxiosError) :
  let base := error_message err "Failed to load recommendations. Please try again." in
  (recType = "collaborative" -> ci_substring "tmdb" base ->
   recommendation_error_message recType err = (base ++ tmdb_note)%string) /\
  (recType = "collaborative" -> ~ ci_substring "tmdb" base ->
   recommendation_error_message recType err = base) /\
  (recType <> "collaborative" -> recommendation_error_message recType err = base).
Proof.
  intro base. unfold recommendation_error_message. fold base.
  split; [|split].
  - intros -> H. apply (includes_ci_substring base "tmdb") in H.
    cbn [String.eqb Ascii.eqb Bool.eqb]. cbn in H. rewrite H. reflexivity.
  - intros -> H. cbn [String.eqb Ascii.eqb Bool.eqb].
    destruct (includes (toLowerCase base) "tmdb") eqn:E.
    + exfalso. apply H. apply (includes_ci_substring base "tmdb"). exact E.
    + destruct (includes _ "no local movies match"); reflexivity.
  - intro H. apply String.eqb_neq in H. rewrite H. reflexivity.
Qed.

Lemma recommendation_error_message_note_samples :
  recommendation_error_message "collaborative"
    {| response_error := Some "TMDb service unavailable"; response_detail := None |}
  = "TMDb service unavailable Collaborative recommendations rely on TMDb data." /\
  recommendation_error_message "collaborative"
    {| response_error := None; response_detail := Some "No local movies match" |}
  = "No local movies match" /\
  recommendation_error_message "content"
    {| response_error := Some "TMDb service unavailable"; response_detail := None |}
  = "TMDb service unavailable".
Proof.
  split; [|split].
  - apply (proj1 (recommendation_error_message_note "collaborative"
                    {| response_error := Some "TMDb service unavailable";
                       response_detail := None |})); [reflexivity|].
    exists EmptyString, "TMDb", " service unavailable".
    split; [reflexivity | repeat constructor].
  - apply (proj1 (proj2 (recommendation_error_message_note "collaborative"
                    {| response_error := None;
                       response_detail := Some "No local movies match" |})));
      [reflexivity|].
    intro H. apply (includes_ci_substring "No local movies match" "tmdb") in H.
    discriminate H.
  - apply (proj2 (proj2 (recommendation_error_message_note "content"
                    {| response_error := Some "TMDb service unavailable";
                       response_detail := None |}))).
    discriminate.
Defined.

(** ** The catalog loader and the refresh *)

Lemma run_app (s : State) (l1 l2 : list action) :
  run s (l1 ++ l2) = run (run s l1) l2.
Proof. apply fold_left_app. Qed.

(** X1: whatever the backend answers, [fetchMovies] sends the one
    request ['movies/'], ends with the loading flag cleared, so that the
    spinner is not what the page shows, and leaves the recommendation
    state as it was. *)
Theorem fetchMovies_completes (API_get : request -> reply) (s : State) :
  let s' := run s (fetchMovies API_get) in
  requests (fetchMovies API_get) = [GetMovies] /\
  loading s' = false /\ page_view s' <> LoadingView /\
  recommended s' = recommended s /\ selectedMovieId s' = selectedMovieId s /\
  recLoading s' = recLoading s /\ recommendationError s' = recommendationError s.
Proof.
  unfold fetchMovies, page_view.
  destruct (API_get GetMovies) as [data | err]; cbn;
    repeat split; try discriminate.
  destruct (error_message err _); discriminate.
Qed.

(** X2: when the request of [fetchMovies] is rejected, the catalog held
    before stays, and the page shows the error panel with a non-empty
    message: the [error] field of the body, else its [detail] field, else
    the default text (an empty field counts as missing). *)
Theorem fetchMovies_rejected
    (API_get : request -> reply) (err : AxiosError) (s : State) :
  API_get GetMovies = Rejected err ->
  let s' := run s (fetchMovies API_get) in
  let message := error_message err "Failed to load movies. Please try again later." in
  movies s' = movies s /\ error s' = Some message /\
  message <> EmptyString /\ page_view s' = ErrorView message.
Proof.
  intros H s' message. subst s'. unfold fetchMovies. rewrite H.
  assert (Hm : message <> EmptyString) by (apply error_message_nonempty; discriminate).
  unfold page_view. cbn. fold message.
  repeat split; try exact Hm.
  destruct message; [contradiction | reflexivity].
Qed.

Lemma fetchMovies_rejected_detail :
  let s' := run state_with_results
              (fetchMovies (backend_rejecting (Some EmptyString) (Some "Database offline"))) in
  movies s' = movies state_with_results /\
  error s' = Some "Database offline" /\
  "Database offline" <> EmptyString /\
  page_view s' = ErrorView "Database offline".
Proof.
  apply (fetchMovies_rejected
           (backend_rejecting (Some EmptyString) (Some "Database offline"))
           {| response_error := Some EmptyString;
              response_detail := Some "Database offline" |}
           state_with_results).
  reflexivity.
Defined.

(** X3: when the request of [fetchMovies] succeeds, the catalog is the
    list received (the empty list for a body that is no list), the error
    is cleared, and the component takes neither of its early returns (the
    spinner, the error panel) but goes on to the body of the page,
    whatever error was held before. *)
Theorem fetchMovies_resolved
    (API_get : request -> reply) (data : json) (s : State) :
  API_get GetMovies = Resolved data ->
  let s' := run s (fetchMovies API_get) in
  movies s' = array_or_empty data /\ error s' = None /\ page_view s' = MainView.
Proof.
  intros H. unfold fetchMovies. rewrite H. cbn. repeat split.
Qed.

Lemma fetchMovies_resolved_catalog :
  let s' := run initial_state (fetchMovies backend_catalog) in
  movies s' = [dune_json] /\ error s' = None /\ page_view s' = MainView.
Proof.
  apply (fetchMovies_resolved backend_catalog (JArray [dune_json]) initial_state).
  reflexivity.
Defined.

(** X4: whatever the backend answers, [handleRefresh] sends the one
    request ['movies/?refresh=true'], discards the recommendations and
    their error, clears the loading flag, and keeps the selected movie
    id; a rejected refresh keeps the catalog and a successful one
    replaces it. *)
Theorem handleRefresh_completes (API_get : request -> reply) (s : State) :
  let s' := run s (handleRefresh API_get) in
  requests (handleRefresh API_get) = [GetMoviesRefresh] /\
  recommended s' = [] /\ recommendationError s' = None /\
  loading s' = false /\
  selectedMovieId s' = selectedMovieId s /\ recLoading s' = recLoading s /\
  (forall err, API_get GetMoviesRefresh = Rejected err ->
     movies s' = movies s /\
     error s' = Some (error_message err "Failed to refresh movies.")) /\
  (forall data, API_get GetMoviesRefresh = Resolved data ->
     movies s' = array_or_empty data /\ error s' = None).
Proof.
  unfold handleRefresh.
  destruct (API_get GetMoviesRefresh) as [data | err]; cbn;
    repeat (match goal with |- _ /\ _ => split end); try reflexivity;
    intros x Hx; try discriminate Hx; injection Hx as <-; split; reflexivity.
Qed.

(** X5: after a refresh made while a movie is selected and no
    recommendation request is running, the recommendation area shows the
    "no recommendations found" block, and only that one: the selection
    outlives the results the refresh discards. *)
Theorem handleRefresh_shows_no_recommendations
    (API_get : request -> reply) (s : State) :
  truthy (selectedMovieId s) = true -> recLoading s = false ->
  let s' := run s (handleRefresh API_get) in
  shows_no_recommendations s' = true /\ rec_blocks_shown s' = 1%nat.
Proof.
  intros Hsel Hload. unfold handleRefresh.
  unfold rec_blocks_shown, shows_no_recommendations, shows_rec_loading,
    shows_rec_error, shows_recommendations.
  destruct (API_get GetMoviesRefresh) as [data | err]; cbn;
    rewrite Hsel, Hload; split; reflexivity.
Qed.

Lemma handleRefresh_shows_no_recommendations_sample :
  let s' := run state_with_results (handleRefresh backend_two) in
  shows_no_recommendations s' = true /\ rec_blocks_shown s' = 1%nat.
Proof.
  apply (handleRefresh_shows_no_recommendations backend_two state_with_results);
    reflexivity.
Defined.

(** ** The recommendation fetcher *)



(** X7: when the movieId passes the guard and the request is rejected,
    the results are empty, the error is the non-empty message built from
    the body, the loading flag is cleared, and the selected movie id is
    the one held before the request. *)
Theorem fetchRecommended_rejected
    (API_get : request -> reply) (recType : string) (movieId : value)
    (err : AxiosError) (s : State) :
  invalid_movieId movieId = false ->
  API_get (recommendation_request recType movieId) = Rejected err ->
  let s' := run s (fetchRecommended API_get recType movieId) in
  recommended s' = [] /\
  recommendationError s' = Some (recommendation_error_message recType err) /\
  recommendation_error_message recType err <> EmptyString /\
  recLoading s' = false /\ selectedMovieId s' = selectedMovieId s.
Proof.
  intros Hv Hget. unfold fetchRecommended. rewrite Hv, Hget. cbn.
  repeat split. apply recommendation_error_message_nonempty.
Qed.

Lemma fetchRecommended_rejected_sample :
  let s' := run state_with_results
              (fetchRecommended (backend_rejecting None None) "content"
                 (VNumber (number_of_Z 9))) in
  recommended s' = [] /\
  recommendationError s' =
    Some (recommendation_error_message "content"
            {| response_error := None; response_detail := None |}) /\
  recommendation_error_message "content"
    {| response_error := None; response_detail := None |} <> EmptyString /\
  recLoading s' = false /\
  selectedMovieId s' = selectedMovieId state_with_results.
Proof.
  apply (fetchRecommended_rejected (backend_rejecting None None) "content"
           (VNumber (number_of_Z 9))
           {| response_error := None; response_detail := None |}
           state_with_results); reflexivity.
Defined.

(** X8: [fetchRecommended] never touches the catalog: for every movieId,
    mode and answer of the backend, the movie list, the catalog loading
    flag and the catalog error are as before, and so is the view of the
    page. *)
Theorem fetchRecommended_catalog_frame
    (API_get : request -> reply) (recType : string) (movieId : value) (s : State) :
  let s' := run s (fetchRecommended API_get recType movieId) in
  movies s' = movies s /\ loading s' = loading s /\ error s' = error s /\
  page_view s' = page_view s.
Proof.
  unfold fetchRecommended, page_view.
  destruct (invalid_movieId movieId); [cbn; repeat split|].
  destruct (API_get _); cbn; repeat split.
Qed.

(** X9: in every state at most one of the four blocks of the
    recommendation area is rendered. *)
Theorem rec_blocks_exclusive (s : State) : (rec_blocks_shown s <= 1)%nat.
Proof.
  unfold rec_blocks_shown, shows_rec_loading, shows_rec_error,
    shows_no_recommendations, shows_recommendations.
  destruct (recLoading s), (string_truthy (recommendationError s)),
    (recommended s), (truthy (selectedMovieId s)); cbn; lia.
Qed.

(** X10: once [fetchRecommended] is done, if the movieId passed the
    guard, or if no other request was loading, exactly one block of the
    recommendation area is rendered and it is not the spinner: the error,
    the results, or the "no recommendations found" notice. *)
Theorem fetchRecommended_one_block
    (API_get : request -> reply) (recType : string) (movieId : value) (s : State) :
  invalid_movieId movieId = false \/ recLoading s = false ->
  let s' := run s (fetchRecommended API_get recType movieId) in
  shows_rec_loading s' = false /\ rec_blocks_shown s' = 1%nat.
Proof.
  intro H. unfold fetchRecommended.
  unfold rec_blocks_shown, shows_rec_loading, shows_rec_error,
    shows_no_recommendations, shows_recommendations.
  destruct (invalid_movieId movieId) eqn:Hv.
  - destruct H as [H | H]; [discriminate H|]. cbn. rewrite H.
    destruct (recommended s), (truthy (selectedMovieId s)); split; reflexivity.
  - assert (Ht : truthy movieId = true).
    { unfold invalid_movieId in Hv. apply orb_false_iff in Hv.
      destruct Hv as [Hv _]. apply negb_false_iff in Hv. exact Hv. }
    destruct (API_get _) as [data | err];
      cbn -[recommendation_error_message string_truthy].
    + rewrite Ht. destruct (array_or_empty data); split; reflexivity.
    + rewrite (string_truthy_nonempty _ (recommendation_error_message_nonempty recType err)).
      split; reflexivity.
Qed.

Lemma fetchRecommended_one_block_samples :
  (let s' := run state_with_results
               (fetchRecommended (backend_rejecting None None) "content"
                  (VNumber (number_of_Z 9))) in
   shows_rec_loading s' = false /\ rec_blocks_shown s' = 1%nat) /\
  (let s' := run state_with_results (fetchRecommended backend_empty "content" VNull) in
   shows_rec_loading s' = false /\ rec_blocks_shown s' = 1%nat).
Proof.
  split.
  - apply (fetchRecommended_one_block (backend_rejecting None None) "content"
             (VNumber (number_of_Z 9)) state_with_results).
    left. reflexivity.
  - apply (fetchRecommended_one_block backend_empty "content" VNull state_with_results).
    right. reflexivity.
Defined.

(** ** More on [Array.prototype.sort] *)

Lemma sort_never_positive {A : Type} (comparefn : A -> A -> number) (l : list A) :
  (forall x y, is_positive (SortCompare comparefn x y) = false) ->
  sort comparefn l = l.
Proof.
  intro H. induction l as [|x l IH]; [reflexivity|].
  cbn [sort fold_right]. change (fold_right (sort_insert comparefn) [] l)
    with (sort comparefn l). rewrite IH.
  destruct l as [|y l]; [reflexivity|]. cbn [sort_insert]. rewrite H. reflexivity.
Qed.

Section SortConsistent.
Context {A : Type}.
Variable comparefn : A -> A -> number.
Hypothesis comparefn_consistent : consistent comparefn.

Lemma sort_insert_consistent (x : A) (l : list A) :
  StronglySorted (fun a b => not_after comparefn a b = true) l ->
  StronglySorted (fun a b => not_after comparefn a b = true) (sort_insert comparefn x l).
Proof.
  destruct comparefn_consistent as [Htotal Htrans].
  induction l as [|y l IH]; intro Hs; cbn [sort_insert].
  - constructor; constructor.
  - inversion Hs as [|y' l' Hs' Hall]; subst.
    destruct (is_positive (SortCompare comparefn x y)) eqn:E.
    + constructor; [apply IH, Hs'|].
      apply Forall_forall. intros z Hz.
      apply (Permutation_in _ (sort_insert_perm comparefn x l)) in Hz.
      destruct Hz as [<- | Hz].
      * destruct (Htotal x y) as [H | H]; [|exact H].
        unfold not_after in H. rewrite E in H. discriminate H.
      * rewrite Forall_forall in Hall. apply Hall, Hz.
    + assert (Hxy : not_after comparefn x y = true).
      { unfold not_after. rewrite E. reflexivity. }
      constructor; [exact Hs|]. constructor; [exact Hxy|].
      rewrite Forall_forall in Hall |- *. intros z Hz.
      apply Htrans with y; [exact Hxy | apply Hall, Hz].
Qed.

Lemma sort_consistent_sorted (l : list A) :
  StronglySorted (fun a b => not_after comparefn a b = true) (sort comparefn l).
Proof.
  induction l as [|x l IH]; cbn; [constructor|].
  apply sort_insert_consistent, IH.
Qed.

Lemma sort_insert_same_rank (r x : A) (l : list A) :
  filter (fun a => same_rank comparefn a r) (sort_insert comparefn x l) =
  filter (fun a => same_rank comparefn a r) (x :: l).
Proof.
  destruct comparefn_consistent as [Htotal Htrans].
  induction l as [|y l IH]; [reflexivity|].
  cbn [sort_insert].
  destruct (is_positive (SortCompare comparefn x y)) eqn:E; [|reflexivity].
  cbn [filter]. rewrite IH. cbn [filter].
  destruct (same_rank comparefn y r) eqn:Ey;
    destruct (same_rank comparefn x r) eqn:Ex; try reflexivity.
  exfalso. unfold same_rank in Ey, Ex.
  apply andb_true_iff in Ey, Ex. destruct Ey as [_ Hry]. destruct Ex as [Hxr _].
  pose proof (Htrans x r y Hxr Hry) as Hxy.
  unfold not_after in Hxy. rewrite E in Hxy. discriminate Hxy.
Qed.

Lemma sort_same_rank (r : A) (l : list A) :
  filter (fun a => same_rank comparefn a r) (sort comparefn l) =
  filter (fun a => same_rank comparefn a r) l.
Proof.
  induction l as [|x l IH]; [reflexivity|].
  cbn [sort fold_right].
  change (fold_right (sort_insert comparefn) [] l) with (sort comparefn l).
  rewrite sort_insert_same_rank. cbn [filter]. rewrite IH. reflexivity.
Qed.
End SortConsistent.

Lemma default_compare_consistent : consistent default_compare.
Proof.
  unfold consistent, not_after. split.
  - intros a b. rewrite !default_compare_positive.
    destruct (String.ltb b a) eqn:E1; [|left; reflexivity].
    destruct (String.ltb a b) eqn:E2; [|right; reflexivity].
    exfalso. exact (string_lt_asym a b E2 E1).
  - intros a b c. rewrite !default_compare_positive, !negb_true_iff.
    intros Hba Hcb.
    destruct (String.ltb c a) eqn:Hca; [|reflexivity]. exfalso.
    destruct (string_lt_total a b) as [Hab | [Hab | Hab]].
    + assert (H : string_lt c b) by (eapply string_lt_trans; eassumption).
      unfold string_lt in H. congruence.
    + subst b. congruence.
    + unfold string_lt in Hab. congruence.
Qed.

(** ** More on the display list *)

(** X12: with a sort key other than ['title'], ['rating'] and ['year']
    the comparison is constantly 0 and the display list is the filtered
    list in the order of the catalog. *)
Theorem filteredAndSortedMovies_unknown_key
    (lowerCase : string -> string) (localeCompare : string -> string -> number)
    (movies : list Movie) (searchTerm selectedGenre sortBy : string) :
  sortBy <> "title" -> sortBy <> "rating" -> sortBy <> "year" ->
  filteredAndSortedMovies lowerCase localeCompare movies searchTerm selectedGenre sortBy =
  filterMovies lowerCase movies searchTerm selectedGenre.
Proof.
  intros Ht Hr Hy. unfold filteredAndSortedMovies.
  apply sort_never_positive. intros x y. unfold SortCompare, compareMovies.
  apply String.eqb_neq in Ht, Hr, Hy. rewrite Ht, Hr, Hy. reflexivity.
Qed.

Lemma filteredAndSortedMovies_unknown_key_sample :
  filteredAndSortedMovies toLowerCase default_compare [untitled; her; dune] EmptyString "All" "votes" =
  filterMovies toLowerCase [untitled; her; dune] EmptyString "All".
Proof.
  apply (filteredAndSortedMovies_unknown_key toLowerCase default_compare [untitled; her; dune]
           EmptyString "All" "votes"); discriminate.
Defined.

Lemma effective_year_number (movie : Movie) :
  valid_year movie = true ->
  valid_number (effective_year movie) = true /\
  is_nan (effective_year movie) = false.
Proof.
  unfold valid_year, effective_year, or_zero.
  destruct (year movie) as [n|]; [|split; reflexivity].
  intro H. destruct n; cbn; split; try reflexivity; exact H.
Qed.

Lemma compare_year_positive
    (localeCompare : string -> string -> number) (x y : Movie) :
  valid_year x = true -> valid_year y = true ->
  is_positive (SortCompare (compareMovies localeCompare "year") x y)
  = (scaled (effective_year x) <? scaled (effective_year y)).
Proof.
  intros Hx Hy.
  destruct (effective_year_number x Hx) as [Vx Nx].
  destruct (effective_year_number y Hy) as [Vy Ny].
  unfold SortCompare, compareMovies. cbn [String.eqb Ascii.eqb Bool.eqb].
  apply (number_sub_positive (effective_year y) (effective_year x)); assumption.
Qed.

Example sort_by_year_sample :
  map title (filteredAndSortedMovies toLowerCase default_compare
               [untitled; her; all_about_eve; dune] EmptyString "All" "year")
  = ["Dune"; "Her"; "All About Eve"; "Rough Cut"].
Proof. vm_compute. reflexivity. Qed.

(** X13: for every catalog whose years are numbers, the display list
    sorted by year is the filtered list rearranged so that no movie is
    followed by one of a later year, a missing year counting as 0, and
    the movies of any one year keep the order of the filtered list. *)
Theorem sort_by_year_stable
    (lowerCase : string -> string) (localeCompare : string -> string -> number)
    (movies : list Movie) (searchTerm selectedGenre : string) :
  Forall (fun movie => valid_year movie = true) movies ->
  let filtered := filterMovies lowerCase movies searchTerm selectedGenre in
  let shown := filteredAndSortedMovies lowerCase localeCompare movies searchTerm selectedGenre "year" in
  Permutation shown filtered /\
  StronglySorted year_not_above shown /\
  forall r, with_year r shown = with_year r filtered.
Proof.
  intros Hvalid filtered shown.
  assert (Hf : Forall (fun movie => valid_year movie = true) filtered).
  { apply Forall_forall. intros m Hm. apply filter_In in Hm.
    rewrite Forall_forall in Hvalid. apply Hvalid, Hm. }
  assert (Hs : Forall (fun movie => valid_year movie = true) shown).
  { apply sort_Forall, Hf. }
  pose proof (compare_year_positive localeCompare) as Hkey.
  split; [apply sort_perm|]. split.
  - apply StronglySorted_impl_In with
      (R1 := descending (fun m => scaled (effective_year m))).
    + intros a b Ha Hb Hd. rewrite Forall_forall in Hs.
      destruct (effective_year_number a (Hs a Ha)) as [Va1 Va2].
      destruct (effective_year_number b (Hs b Hb)) as [Vb1 Vb2].
      apply SFleb_scaled; assumption.
    + apply (sort_descending _ _ (fun m => valid_year m = true) Hkey filtered Hf).
  - intro r. unfold with_year.
    rewrite Forall_forall in Hs, Hf.
    destruct (is_nan r) eqn:Nr.
    + rewrite !filter_none; [reflexivity | |]; intros a _; apply SFeqb_nan, Nr.
    + destruct (valid_number r) eqn:Vr.
      * rewrite (filter_ext_in _ (fun m => scaled (effective_year m) =? scaled r) shown).
        -- rewrite (filter_ext_in _ (fun m => scaled (effective_year m) =? scaled r) filtered).
           ++ apply (sort_filter_key _ _ (fun m => valid_year m = true) Hkey).
              apply Forall_forall, Hf.
           ++ intros a Ha. destruct (effective_year_number a (Hf a Ha)) as [Va Na].
              apply SFeqb_scaled; assumption.
        -- intros a Ha. destruct (effective_year_number a (Hs a Ha)) as [Va Na].
           apply SFeqb_scaled; assumption.
      * rewrite !filter_none; [reflexivity | |]; intros a Ha.
        -- destruct (effective_year_number a (Hf a Ha)) as [Va _].
           apply SFeqb_invalid; assumption.
        -- destruct (effective_year_number a (Hs a Ha)) as [Va _].
           apply SFeqb_invalid; assumption.
Qed.

Lemma sort_by_year_stable_sample :
  let catalog := [untitled; her; all_about_eve; dune] in
  let filtered := filterMovies toLowerCase catalog EmptyString "All" in
  let shown := filteredAndSortedMovies toLowerCase default_compare catalog EmptyString "All" "year" in
  Permutation shown filtered /\
  StronglySorted year_not_above shown /\
  forall r, with_year r shown = with_year r filtered.
Proof.
  apply (sort_by_year_stable toLowerCase default_compare
           [untitled; her; all_about_eve; dune] EmptyString "All").
  repeat constructor.
Defined.

(** X14: when the collation is a consistent comparison, the display
    list sorted by title is the filtered list rearranged so that no movie
    has to come after a later one, and the movies whose titles the
    collation ranks the same keep the order of the filtered list. *)
Theorem sort_by_title_stable
    (lowerCase : string -> string) (localeCompare : string -> string -> number)
    (movies : list Movie) (searchTerm selectedGenre : string) :
  consistent localeCompare ->
  let filtered := filterMovies lowerCase movies searchTerm selectedGenre in
  let shown := filteredAndSortedMovies lowerCase localeCompare movies searchTerm selectedGenre "title" in
  Permutation shown filtered /\
  StronglySorted (fun a b => not_after localeCompare (title a) (title b) = true) shown /\
  forall t, filter (fun movie => same_rank localeCompare (title movie) t) shown =
            filter (fun movie => same_rank localeCompare (title movie) t) filtered.
Proof.
  intros Hc filtered shown.
  assert (Hc' : consistent (compareMovies localeCompare "title")).
  { destruct Hc as [Htotal Htrans]. split.
    - intros a b. apply (Htotal (title a) (title b)).
    - intros a b c. apply (Htrans (title a) (title b) (title c)). }
  split; [apply sort_perm|]. split.
  - apply (sort_consistent_sorted _ Hc').
  - intro t.
    pose (r := {| id := 0; title := t; description := None; genre := None;
                  rating := None; year := None; poster_url := None |}).
    apply (sort_same_rank _ Hc' r).
Qed.

Lemma sort_by_title_stable_sample :
  let catalog := [untitled; her; all_about_eve; dune] in
  let filtered := filterMovies toLowerCase catalog EmptyString "All" in
  let shown := filteredAndSortedMovies toLowerCase default_compare catalog EmptyString "All" "title" in
  Permutation shown filtered /\
  StronglySorted (fun a b => not_after default_compare (title a) (title b) = true) shown /\
  forall t, filter (fun movie => same_rank default_compare (title movie) t) shown =
            filter (fun movie => same_rank default_compare (title movie) t) filtered.
Proof.
  apply (sort_by_title_stable toLowerCase default_compare
           [untitled; her; all_about_eve; dune] EmptyString "All").
  exact default_compare_consistent.
Defined.

Lemma filter_all {A : Type} (f : A -> bool) (l : list A) :
  (forall a, In a l -> f a = true) -> filter f l = l.
Proof.
  induction l as [|x l IH]; intro H; [reflexivity|].
  cbn. rewrite (H x (or_introl eq_refl)). f_equal. apply IH.
  intros a Ha. apply H. right. exact Ha.
Qed.

Lemma filter_length_bound {A : Type} (f : A -> bool) (l : list A) :
  (List.length (filter f l) <= List.length l)%nat.
Proof.
  induction l as [|x l IH]; cbn; [lia|]. destruct (f x); cbn; lia.
Qed.

(** X15: the display list never has more movies than the catalog
    ("Showing n of m" has n at most m), and with the empty query and the
    genre ["All"] it is a rearrangement of the whole catalog, for every
    sort key and collation. *)
Theorem filteredAndSortedMovies_count
    (lowerCase : string -> string) (localeCompare : string -> string -> number)
    (movies : list Movie) (searchTerm selectedGenre sortBy : string) :
  (List.length (filteredAndSortedMovies lowerCase localeCompare movies searchTerm selectedGenre sortBy)
   <= List.length movies)%nat /\
  Permutation (filteredAndSortedMovies lowerCase localeCompare movies EmptyString "All" sortBy) movies.
Proof.
  unfold filteredAndSortedMovies, filterMovies. split.
  - rewrite (Permutation_length (sort_perm _ _)). apply filter_length_bound.
  - eapply perm_trans; [apply sort_perm|].
    rewrite filter_all; [apply Permutation_refl|].
    intros a _. rewrite matchesSearch_empty. reflexivity.
Qed.

Lemma string_append_assoc (a b c : string) :
  ((a ++ b) ++ c)%string = (a ++ (b ++ c))%string.
Proof. induction a as [|x a IH]; cbn; [reflexivity | rewrite IH; reflexivity]. Qed.

Lemma matchesGenre_All (movie : Movie) : matchesGenre "All" movie = true.
Proof. reflexivity. Qed.

(** X16: clearing a criterion never hides a movie: a movie displayed
    for a query and a genre is also displayed for the empty query with
    that genre, for that query with the genre ["All"], and with both
    cleared, whatever the lower-case mapping of the host. *)
Theorem filteredAndSortedMovies_clearing
    (lowerCase : string -> string) (localeCompare : string -> string -> number)
    (movies : list Movie) (q selectedGenre sortBy : string) (movie : Movie) :
  In movie (filteredAndSortedMovies lowerCase localeCompare movies q selectedGenre sortBy) ->
  In movie (filteredAndSortedMovies lowerCase localeCompare movies EmptyString
              selectedGenre sortBy) /\
  In movie (filteredAndSortedMovies lowerCase localeCompare movies q "All" sortBy) /\
  In movie (filteredAndSortedMovies lowerCase localeCompare movies EmptyString "All" sortBy).
Proof.
  intro H. apply filteredAndSortedMovies_In in H. destruct H as [Hin [Hs Hg]].
  pose proof (matchesSearch_empty lowerCase movie) as He.
  pose proof (matchesGenre_All movie) as Ha.
  repeat split; apply filteredAndSortedMovies_In; repeat split; assumption.
Qed.

Lemma filteredAndSortedMovies_clearing_sample :
  In dune (filteredAndSortedMovies toLowerCase default_compare [her; dune; untitled]
             EmptyString "Sci-Fi" "rating") /\
  In dune (filteredAndSortedMovies toLowerCase default_compare [her; dune; untitled]
             "un" "All" "rating") /\
  In dune (filteredAndSortedMovies toLowerCase default_compare [her; dune; untitled]
             EmptyString "All" "rating").
Proof.
  apply (filteredAndSortedMovies_clearing toLowerCase default_compare
           [her; dune; untitled] "un" "Sci-Fi" "rating" dune).
  vm_compute. left. reflexivity.
Defined.

(** ** More on the list of genres *)

Lemma genres_tail_In (movies : list Movie) (g : string) :
  In g (sort default_compare (Set_values (keep_truthy (map genre movies)))) <->
  g <> EmptyString /\ exists movie, In movie movies /\ genre movie = Some g.
Proof.
  rewrite sort_In, Set_values_In, keep_truthy_In, in_map_iff.
  split; intros [Hne [movie H]]; (split; [exact Hne|]); exists movie; tauto.
Qed.

(** X17: every option of the genre selector other than ["All"] selects
    something: with the empty query, the filtered list for that genre
    holds a movie of the catalog with exactly that genre. *)
Theorem genres_options_select
    (lowerCase : string -> string) (movies : list Movie) (g : string) :
  In g (genres movies) -> g <> "All" ->
  exists movie, In movie (filterMovies lowerCase movies EmptyString g) /\ genre movie = Some g.
Proof.
  intros Hin Hne. unfold genres in Hin. destruct Hin as [H | H]; [congruence|].
  apply genres_tail_In in H. destruct H as [_ [movie [Hm Hg]]].
  exists movie. split; [|exact Hg].
  unfold filterMovies. apply filter_In. split; [exact Hm|].
  rewrite matchesSearch_empty. unfold matchesGenre. rewrite Hg.
  rewrite String.eqb_refl. apply orb_true_r.
Qed.

Lemma genres_options_select_sample :
  exists movie, In movie (filterMovies toLowerCase [dune; her; untitled] EmptyString "Drama") /\
                genre movie = Some "Drama".
Proof.
  apply (genres_options_select toLowerCase [dune; her; untitled] "Drama").
  - vm_compute. right. left. reflexivity.
  - discriminate.
Defined.

Lemma strictly_sorted_unique (l1 l2 : list string) :
  StronglySorted string_lt l1 -> StronglySorted string_lt l2 ->
  (forall x, In x l1 <-> In x l2) -> l1 = l2.
Proof.
  intro H1. revert l2. induction H1 as [|x l1 Hs1 IH Hall1]; intros l2 H2 Hmem.
  - destruct l2 as [|y l2]; [reflexivity|].
    exfalso. apply (proj2 (Hmem y)). left. reflexivity.
  - destruct H2 as [|y l2 Hs2 Hall2].
    + exfalso. apply (proj1 (Hmem x)). left. reflexivity.
    + rewrite Forall_forall in Hall1, Hall2.
      assert (Hxy : x = y).
      { destruct (proj1 (Hmem x) (or_introl eq_refl)) as [E | Hx]; [symmetry; exact E|].
        destruct (proj2 (Hmem y) (or_introl eq_refl)) as [E | Hy]; [exact E|].
        exfalso. exact (string_lt_asym x y (Hall1 y Hy) (Hall2 x Hx)). }
      subst y. f_equal. apply IH; [exact Hs2|].
      intro z. split; intro Hz.
      * destruct (proj1 (Hmem z) (or_intror Hz)) as [E | Hz']; [|exact Hz'].
        subst z. exfalso. exact (string_lt_irrefl x (Hall1 x Hz)).
      * destruct (proj2 (Hmem z) (or_intror Hz)) as [E | Hz']; [|exact Hz'].
        subst z. exfalso. exact (string_lt_irrefl x (Hall2 x Hz)).
Qed.

(** X18: the list of genres depends on the genres that occur in the
    catalog only, not on the order or the number of the movies: two
    catalogs that are rearrangements of one another give the same list. *)
Theorem genres_order_independent (movies movies' : list Movie) :
  Permutation movies movies' -> genres movies = genres movies'.
Proof.
  intro HP. unfold genres. f_equal.
  apply strictly_sorted_unique;
    try (apply sort_default_sorted, Set_values_NoDup).
  intro g. rewrite !genres_tail_In.
  split; intros [Hne [movie [Hm Hg]]]; (split; [exact Hne|]); exists movie;
    (split; [|exact Hg]).
  - eapply Permutation_in; eassumption.
  - eapply Permutation_in; [apply Permutation_sym|]; eassumption.
Qed.

Lemma genres_order_independent_sample :
  genres [dune; her; untitled] = genres [untitled; dune; her].
Proof.
  apply (genres_order_independent [dune; her; untitled] [untitled; dune; her]).
  apply Permutation_sym.
  apply (Permutation_cons_app [dune; her] [] untitled). apply Permutation_refl.
Defined.

(** ** More on the favorites *)

(** X19: a toggle flips the membership of its id and of no other: the id
    is a favorite afterwards exactly when it was not before, and every
    other id is a favorite afterwards exactly when it was before. *)
Theorem toggle_flips_one (movieId x : Z) (prev : list Z) :
  (In movieId (toggle movieId prev) <-> ~ In movieId prev) /\
  (x <> movieId -> (In x (toggle movieId prev) <-> In x prev)).
Proof.
  split; [|intro Hne]; rewrite In_toggle;
    destruct (in_dec Z.eq_dec movieId prev); tauto.
Qed.

Lemma filter_remove_append (movieId : Z) (l : list Z) :
  filter (fun id => negb (id =? movieId)) (l ++ [movieId]) =
  filter (fun id => negb (id =? movieId)) l.
Proof.
  rewrite filter_app. cbn. rewrite Z.eqb_refl. cbn. apply app_nil_r.
Qed.

Lemma filter_remove_idempotent (movieId : Z) (l : list Z) :
  filter (fun id => negb (id =? movieId)) (filter (fun id => negb (id =? movieId)) l) =
  filter (fun id => negb (id =? movieId)) l.
Proof.
  apply filter_all. intros a Ha. apply filter_In in Ha. tauto.
Qed.

(** X20: a toggle keeps a list without repetition free of repetition,
    removes every occurrence of an id that was present, and never changes
    the order of the other ids. *)
Theorem toggle_keeps_order (movieId : Z) (prev : list Z) :
  (NoDup prev -> NoDup (toggle movieId prev)) /\
  (In movieId prev -> ~ In movieId (toggle movieId prev)) /\
  filter (fun id => negb (id =? movieId)) (toggle movieId prev) =
  filter (fun id => negb (id =? movieId)) prev.
Proof.
  unfold toggle. destruct (existsb (Z.eqb movieId) prev) eqn:E.
  - split; [|split].
    + intro H. apply NoDup_filter, H.
    + intros _ H. apply In_remove in H. tauto.
    + apply filter_remove_idempotent.
  - assert (Hn : ~ In movieId prev).
    { intro H. apply existsb_eqb_In in H. congruence. }
    split; [|split].
    + intro H. apply NoDup_app; [exact H | constructor; [intros [] | constructor] |].
      intros a Ha [<- | []]. exact (Hn Ha).
    + intro H. contradiction.
    + apply filter_remove_append.
Qed.

Lemma toggle_keeps_order_sample :
  NoDup (toggle 3 [1; 3; 2]) /\ ~ In 3 (toggle 3 [1; 3; 2]).
Proof.
  split.
  - apply (proj1 (toggle_keeps_order 3 [1; 3; 2])).
    repeat constructor; cbn; intuition discriminate.
  - apply (proj1 (proj2 (toggle_keeps_order 3 [1; 3; 2]))).
    cbn. right. left. reflexivity.
Defined.

Lemma click_favorite_eq (movieId : Z) (st : Store) :
  click_favorite movieId st =
  {| favorites := toggles (queued st ++ [movieId]) (favorites st);
     queued := []; effect_due := false;
     movieFavorites :=
       Some (JSON_stringify (toggles (queued st ++ [movieId]) (favorites st))) |}.
Proof.
  unfold click_favorite, run_effects. rewrite render_after_toggle_due. reflexivity.
Qed.

Lemma clicks_eq (ids : list Z) (st : Store) :
  ids <> [] ->
  clicks ids st =
  {| favorites := toggles (queued st ++ ids) (favorites st);
     queued := []; effect_due := false;
     movieFavorites := Some (JSON_stringify (toggles (queued st ++ ids) (favorites st))) |}.
Proof.
  revert st. induction ids as [|a ids IH]; intros st Hne; [contradiction|].
  unfold clicks. cbn [fold_left]. fold (clicks ids (click_favorite a st)).
  destruct ids as [|b ids].
  - cbn [clicks fold_left]. apply click_favorite_eq.
  - rewrite IH by discriminate. rewrite click_favorite_eq. cbn [favorites queued].
    unfold toggles. cbn [app]. rewrite !fold_left_app. reflexivity.
Qed.

Lemma toggleFavorite_calls (ids : list Z) (st : Store) :
  fold_left (fun s movieId => toggleFavorite movieId s) ids st =
  {| favorites := favorites st; queued := (queued st ++ ids)%list;
     effect_due := effect_due st; movieFavorites := movieFavorites st |}.
Proof.
  revert st. induction ids as [|a ids IH]; intro st; cbn [fold_left].
  - rewrite app_nil_r. destruct st; reflexivity.
  - rewrite IH. cbn. rewrite <- app_assoc. reflexivity.
Qed.

(** X21: however many hearts are clicked, and whether React renders
    after each call of [toggleFavorite] or once for all of them, the
    store ends the same: the favorites are the updates applied in the
    order of the calls, nothing is left queued, and [localStorage] holds
    the JSON encoding of exactly these favorites. *)
Theorem clicks_persist (ids : list Z) (st : Store) :
  ids <> [] ->
  let st' := clicks ids st in
  batch ids st = st' /\
  favorites st' = toggles ids (favorites (render st)) /\
  queued st' = [] /\ effect_due st' = false /\
  movieFavorites st' = Some (JSON_stringify (favorites st')).
Proof.
  intros Hne st'. subst st'. rewrite (clicks_eq ids st Hne). cbn [favorites queued
    effect_due movieFavorites]. split; [|repeat split].
  - unfold batch. rewrite toggleFavorite_calls. unfold run_effects, render.
    cbn [favorites queued effect_due movieFavorites].
    destruct (queued st ++ ids)%list eqn:E; [|reflexivity].
    apply app_eq_nil in E. destruct E as [_ E]. contradiction.
  - unfold toggles. rewrite fold_left_app. reflexivity.
Qed.

Lemma clicks_persist_sample :
  let st' := clicks [4; 7; 4] (mount [7] None) in
  batch [4; 7; 4] (mount [7] None) = st' /\
  favorites st' = toggles [4; 7; 4] (favorites (render (mount [7] None))) /\
  queued st' = [] /\ effect_due st' = false /\
  movieFavorites st' = Some (JSON_stringify (favorites st')).
Proof.
  apply (clicks_persist [4; 7; 4] (mount [7] None)). discriminate.
Defined.

Example clicks_sample_value :
  clicks [4; 7; 4] (mount [7] None) =
  {| favorites := []; queued := []; effect_due := false;
     movieFavorites := Some "[]" |}.
Proof. reflexivity. Qed.

(** ** What is persisted is read back *)

Lemma list_ascii_of_string_app (a b : string) :
  list_ascii_of_string (a ++ b) = (list_ascii_of_string a ++ list_ascii_of_string b)%list.
Proof. induction a as [|c a IH]; cbn; [reflexivity | rewrite IH; reflexivity]. Qed.

Lemma uint_chars_digits (d : Decimal.uint) :
  Forall (fun c => is_digit c = true)
         (list_ascii_of_string (NilEmpty.string_of_uint d)).
Proof. induction d; cbn; constructor; try reflexivity; assumption. Qed.

Lemma uint_chars_value_acc (d : Decimal.uint) (acc : positive) :
  fold_left (fun a c => 10 * a + Z.of_N (N_of_ascii c - 48))
            (list_ascii_of_string (NilEmpty.string_of_uint d)) (Zpos acc)
  = Zpos (Pos.of_uint_acc d acc).
Proof.
  revert acc. induction d; intro acc; cbn [NilEmpty.string_of_uint
    list_ascii_of_string fold_left Pos.of_uint_acc]; [reflexivity | ..];
    rewrite <- IHd; f_equal;
    match goal with
    | |- context [Z.of_N ?n] =>
        let v := eval vm_compute in (Z.of_N n) in change (Z.of_N n) with v
    end; lia.
Qed.

Lemma uint_chars_value (d : Decimal.uint) :
  digits_value (list_ascii_of_string (NilEmpty.string_of_uint d))
  = Z.of_N (Pos.of_uint d).
Proof.
  unfold digits_value.
  induction d; cbn [NilEmpty.string_of_uint list_ascii_of_string fold_left Pos.of_uint];
    [reflexivity | exact IHd | ..]; apply (uint_chars_value_acc d).
Qed.

Lemma span_digits_all (cs : list ascii) :
  Forall (fun c => is_digit c = true) cs -> span_digits cs = (cs, []).
Proof.
  induction 1 as [|c cs Hc _ IH]; [reflexivity|].
  cbn [span_digits]. rewrite Hc, IH. reflexivity.
Qed.

Lemma nzhead_not_D0 (d d' : Decimal.uint) : Decimal.nzhead d <> Decimal.D0 d'.
Proof. induction d; cbn; try discriminate; exact IHd. Qed.

(** The numeral of a positive integer has no leading zero. *)
Lemma to_uint_head (p : positive) :
  Pos.to_uint p <> Decimal.Nil /\ forall d, Pos.to_uint p <> Decimal.D0 d.
Proof.
  split; [apply DecimalPos.Unsigned.to_uint_nonnil|].
  intros d H.
  pose proof (DecimalPos.Unsigned.to_of (Pos.to_uint p)) as E.
  rewrite DecimalPos.Unsigned.of_to in E. cbn [N.to_uint] in E.
  unfold Decimal.unorm in E. rewrite H in E. cbn [Decimal.nzhead] in E.
  destruct (Decimal.nzhead d) eqn:Hn; try discriminate E.
  - apply (DecimalPos.Unsigned.to_uint_nonzero p). rewrite H. exact E.
  - exact (nzhead_not_D0 _ _ Hn).
Qed.

Lemma digit_is_no_sign (c : ascii) (cs : list ascii) :
  is_digit c = true ->
  match c :: cs with
  | "-"%char :: r => (true, r)
  | _ => (false, c :: cs)
  end = (false, c :: cs).
Proof.
  destruct c as [[] [] [] [] [] [] [] []]; intro H; try reflexivity; discriminate H.
Qed.

Lemma parse_number_tail (neg : bool) (ds : list ascii) :
  Forall (fun c => is_digit c = true) ds -> well_formed_int ds = true ->
  (let (ip, cs2) := span_digits ds in
   if well_formed_int ip then
     match cs2 with
     | "."%char :: r =>
         match span_digits r with
         | ((_ :: _) as fp, cs3) =>
             option_map
               (fun ex => decimal_to_number neg (digits_value (ip ++ fp)%list)
                                            (ex - Z.of_nat (List.length fp)))
               (parse_exponent cs3)
         | _ => None
         end
     | _ =>
         option_map (fun ex => decimal_to_number neg (digits_value ip) ex)
                    (parse_exponent cs2)
     end
   else None) = Some (decimal_to_number neg (digits_value ds) 0).
Proof.
  intros Hd Hw. rewrite (span_digits_all ds Hd), Hw. reflexivity.
Qed.

Lemma parse_number_unsigned (ds : list ascii) :
  Forall (fun c => is_digit c = true) ds -> well_formed_int ds = true ->
  parse_number ds = Some (decimal_to_number false (digits_value ds) 0).
Proof.
  intros Hd Hw. destruct ds as [|c cs]; [discriminate Hw|].
  unfold parse_number. rewrite digit_is_no_sign by (inversion Hd; assumption).
  apply parse_number_tail; assumption.
Qed.

Lemma parse_number_negative (ds : list ascii) :
  Forall (fun c => is_digit c = true) ds -> well_formed_int ds = true ->
  parse_number ("-"%char :: ds) = Some (decimal_to_number true (digits_value ds) 0).
Proof.
  intros Hd Hw. unfold parse_number. apply parse_number_tail; assumption.
Qed.

Lemma to_uint_well_formed (p : positive) :
  well_formed_int (list_ascii_of_string (NilEmpty.string_of_uint (Pos.to_uint p))) = true.
Proof.
  destruct (to_uint_head p) as [Hnil H0].
  destruct (Pos.to_uint p) as [|d|d|d|d|d|d|d|d|d|d]; try reflexivity.
  - contradiction.
  - exfalso. exact (H0 d eq_refl).
Qed.

Lemma string_of_uint_nonnil (d : Decimal.uint) :
  d <> Decimal.Nil -> NilZero.string_of_uint d = NilEmpty.string_of_uint d.
Proof. destruct d; [contradiction | reflexivity ..]. Qed.

Lemma decimal_to_number_integer (neg : bool) (p : positive) :
  decimal_to_number neg (Zpos p) 0 = number_of_Z (cond_Zopp neg (Zpos p)).
Proof.
  unfold decimal_to_number, number_of_Z. cbn [Z.leb Z.compare].
  change (10 ^ 0) with 1. rewrite Z.mul_1_r. reflexivity.
Qed.

(** The numeral of an integer is read back as that integer. *)
Lemma parse_number_numeral (z : Z) :
  parse_number (numeral z) = Some (number_of_Z z).
Proof.
  unfold numeral, Number_toString. destruct z as [|p|p]; [reflexivity | |];
    cbn [Z.to_int NilZero.string_of_int];
    rewrite (string_of_uint_nonnil _ (proj1 (to_uint_head p))).
  - rewrite parse_number_unsigned
      by (apply uint_chars_digits || apply to_uint_well_formed).
    rewrite uint_chars_value, DecimalPos.Unsigned.of_to. cbn [Z.of_N].
    rewrite decimal_to_number_integer. reflexivity.
  - cbn [list_ascii_of_string].
    rewrite parse_number_negative
      by (apply uint_chars_digits || apply to_uint_well_formed).
    rewrite uint_chars_value, DecimalPos.Unsigned.of_to. cbn [Z.of_N].
    rewrite decimal_to_number_integer. reflexivity.
Qed.

Lemma scan_idle_number_start (c : ascii) (toks : list token) :
  number_start c = true -> scan_idle c toks = Some (MNumber [c], toks).
Proof.
  destruct c as [[] [] [] [] [] [] [] []]; intro H; try reflexivity; discriminate H.
Qed.

Lemma digit_is_number_char (c : ascii) : is_digit c = true -> is_number_char c = true.
Proof. unfold is_number_char. intros ->. reflexivity. Qed.

(** A numeral is a digit or a minus sign followed by digits. *)
Lemma numeral_shape (z : Z) :
  exists c cs, numeral z = c :: cs /\ number_start c = true /\
               Forall (fun a => is_number_char a = true) cs.
Proof.
  assert (Hpos : forall p, exists c cs,
             list_ascii_of_string (NilEmpty.string_of_uint (Pos.to_uint p)) = c :: cs /\
             is_digit c = true /\ Forall (fun a => is_number_char a = true) cs).
  { intro p. pose proof (uint_chars_digits (Pos.to_uint p)) as Hd.
    pose proof (to_uint_well_formed p) as Hw.
    destruct (list_ascii_of_string _) as [|c cs]; [discriminate Hw|].
    inversion Hd as [|c' cs' Hc Hcs]; subst. exists c, cs.
    split; [reflexivity|]. split; [exact Hc|].
    eapply Forall_impl; [|exact Hcs]. intros a. apply digit_is_number_char. }
  unfold numeral, Number_toString. destruct z as [|p|p].
  - exists "0"%char, []. repeat split. constructor.
  - cbn [Z.to_int NilZero.string_of_int].
    rewrite (string_of_uint_nonnil _ (proj1 (to_uint_head p))).
    destruct (Hpos p) as [c [cs [E [Hc Hcs]]]]. exists c, cs.
    split; [exact E|]. split; [|exact Hcs].
    unfold number_start. rewrite Hc. reflexivity.
  - cbn [Z.to_int NilZero.string_of_int list_ascii_of_string].
    rewrite (string_of_uint_nonnil _ (proj1 (to_uint_head p))).
    destruct (Hpos p) as [c [cs [E [Hc Hcs]]]]. exists "-"%char, (c :: cs).
    split; [rewrite E; reflexivity|]. split; [reflexivity|].
    constructor; [apply digit_is_number_char, Hc | exact Hcs].
Qed.

Lemma scan_number_chars (cs rest acc : list ascii) (toks : list token) :
  Forall (fun a => is_number_char a = true) cs ->
  scan (cs ++ rest) (MNumber acc, toks) = scan rest (MNumber (rev cs ++ acc), toks).
Proof.
  intro H. revert acc. induction H as [|c cs Hc _ IH]; intro acc; [reflexivity|].
  cbn [app scan scan_step]. rewrite Hc, IH. cbn [rev]. rewrite <- app_assoc. reflexivity.
Qed.

(** Scanning a numeral from the idle mode leaves the scanner in the
    number mode with the characters of the numeral. *)
Lemma scan_numeral (z : Z) (rest : list ascii) (toks : list token) :
  scan (numeral z ++ rest) (MIdle, toks) = scan rest (MNumber (rev (numeral z)), toks).
Proof.
  destruct (numeral_shape z) as [c [cs [E [Hc Hcs]]]]. rewrite E.
  cbn [app scan scan_step]. rewrite (scan_idle_number_start c toks Hc).
  rewrite (scan_number_chars cs rest [c] toks Hcs). reflexivity.
Qed.

Lemma scan_comma_after_number (rest acc : list ascii) (toks : list token) :
  scan (","%char :: rest) (MNumber acc, toks) =
  scan rest (MIdle, TComma :: TNumber (rev acc) :: toks).
Proof. reflexivity. Qed.

Lemma scan_numerals_tail (rest : list Z) (acc : list ascii) (toks : list token) :
  scan (list_ascii_of_string (numerals_tail rest)) (MNumber acc, toks) =
  Some (rev toks ++ TNumber (rev acc) ::
        flat_map (fun z => [TComma; TNumber (numeral z)]) rest ++ [TRBracket])%list.
Proof.
  revert acc toks. induction rest as [|z rest IH]; intros acc toks.
  - cbn. rewrite <- app_assoc. reflexivity.
  - cbn [numerals_tail fold_right]. fold (numerals_tail rest).
    cbn [append list_ascii_of_string]. rewrite list_ascii_of_string_app.
    fold (numeral z). rewrite scan_comma_after_number.
    rewrite scan_numeral, IH. rewrite rev_involutive.
    cbn [rev flat_map app]. rewrite <- !app_assoc. reflexivity.
Qed.

Lemma join_numerals (z : Z) (rest : list Z) :
  (join "," (map Number_toString (z :: rest)) ++ "]")%string =
  (Number_toString z ++ numerals_tail rest)%string.
Proof.
  revert z. induction rest as [|z' rest IH]; intro z; [reflexivity|].
  cbn [map join]. cbn [map] in IH. cbn [numerals_tail fold_right].
  fold (numerals_tail rest). rewrite <- IH.
  rewrite !string_append_assoc. reflexivity.
Qed.

(** The text [JSON.stringify] writes is scanned into the tokens of the
    array. *)
Lemma scan_JSON_stringify (ids : list Z) :
  scan (list_ascii_of_string (JSON_stringify ids)) (MIdle, []) =
  Some (TLBracket :: numeral_tokens ids ++ [TRBracket])%list.
Proof.
  unfold JSON_stringify. destruct ids as [|z rest]; [reflexivity|].
  cbn [append list_ascii_of_string scan scan_step scan_idle].
  rewrite join_numerals, list_ascii_of_string_app. fold (numeral z).
  rewrite scan_numeral, scan_numerals_tail, rev_involutive. reflexivity.
Qed.

Lemma parse_numerals_tail (rest : list Z) (items : list json) :
  parse_tokens (flat_map (fun z => [TComma; TNumber (numeral z)]) rest ++ [TRBracket])
               (PArrayNext items [])
  = Some (JArray (rev items ++ map (fun z => JNumber (number_of_Z z)) rest)).
Proof.
  revert items. induction rest as [|z rest IH]; intro items.
  - cbn. rewrite app_nil_r. reflexivity.
  - cbn [flat_map app parse_tokens parse_step parse_value_start].
    rewrite parse_number_numeral. cbn [option_map complete].
    rewrite IH. cbn [rev map]. rewrite <- app_assoc. reflexivity.
Qed.

Lemma parse_numeral_tokens (ids : list Z) :
  parse_tokens (TLBracket :: numeral_tokens ids ++ [TRBracket]) (PValue [])
  = Some (JArray (map (fun z => JNumber (number_of_Z z)) ids)).
Proof.
  destruct ids as [|z rest]; [reflexivity|].
  cbn [numeral_tokens app parse_tokens parse_step parse_value_start].
  rewrite parse_number_numeral. cbn [option_map complete].
  rewrite parse_numerals_tail. reflexivity.
Qed.

Lemma JSON_stringify_nonempty (ids : list Z) : JSON_stringify ids <> EmptyString.
Proof. unfold JSON_stringify. discriminate. Qed.

Example reload_sample :
  initFavorites (movieFavorites (clicks [12; -3; 0] (mount [] None))) =
  Normal (JArray [JNumber (number_of_Z 12); JNumber (number_of_Z (-3));
                  JNumber (number_of_Z 0)]).
Proof. vm_compute. reflexivity. Qed.

(** *** Safe integers are binary64 numbers *)

Lemma digits2_iter_xO (m d : positive) :
  Zpos (digits2_pos (Pos.iter xO m d)) = Zpos (digits2_pos m) + Zpos d.
Proof.
  induction d as [|d IH] using Pos.peano_ind.
  - cbn. lia.
  - rewrite Pos.iter_succ. cbn [digits2_pos]. rewrite Pos2Z.inj_succ, IH. lia.
Qed.

(** A mantissa of 53 bits needs no rounding. *)
Lemma binary_round_aux_exact (s : bool) (mz : positive) (ez : Z) :
  Zpos (digits2_pos mz) = 53 -> -1074 <= ez <= 971 ->
  binary_round_aux prec emax s (Zpos mz) ez loc_Exact = S754_finite s mz ez.
Proof.
  intros Hd He.
  assert (Hn : fexp prec emax (53 + ez) - ez = 0).
  { unfold fexp, SpecFloat.emin, prec, emax. lia. }
  unfold binary_round_aux, shr_fexp.
  cbn [Zdigits2 shr_record_of_loc]. rewrite Hd, Hn.
  cbn [shr shr_m loc_of_shr_record round_nearest_even Zdigits2]. rewrite Hd, Hn.
  cbn [shr shr_m].
  assert (Hl : (ez <=? emax - prec) = true) by (apply Z.leb_le; unfold emax, prec; lia).
  rewrite Hl. reflexivity.
Qed.

Lemma binary_round_integer (s : bool) (p : positive) :
  Zpos p < 2 ^ 53 ->
  exists mz ez, binary_round prec emax s p 0 = S754_finite s mz ez /\
                -52 <= ez <= 0 /\ Zpos (digits2_pos mz) = 53 /\
                Zpos mz * 2 ^ (ez + 1074) = Zpos p * 2 ^ 1074.
Proof.
  intro Hp. pose proof (digits2_pos_bounds p) as Hd.
  set (d := Zpos (digits2_pos p)) in *.
  assert (Hd1 : 1 <= d) by (unfold d; lia).
  assert (Hd53 : d <= 53).
  { destruct (Z.le_gt_cases d 53) as [H | H]; [exact H|]. exfalso.
    assert (2 ^ 53 <= 2 ^ (d - 1)) by (apply Z.pow_le_mono_r; lia). lia. }
  unfold binary_round. fold d.
  assert (Hf : fexp prec emax (d + 0) = d - 53).
  { unfold fexp, SpecFloat.emin, prec, emax. lia. }
  rewrite Hf. unfold shl_align.
  destruct (d - 53 - 0) as [|k|k] eqn:Ek; try lia.
  - exists p, 0. rewrite binary_round_aux_exact by (fold d; lia).
    split; [reflexivity|]. split; [lia|]. split; [fold d; lia | reflexivity].
  - exists (Pos.iter xO p k), (d - 53).
    assert (Hdk : Zpos (digits2_pos (Pos.iter xO p k)) = 53).
    { rewrite digits2_iter_xO. fold d. lia. }
    rewrite binary_round_aux_exact by (exact Hdk || lia).
    split; [reflexivity|]. split; [lia|]. split; [exact Hdk|].
    rewrite iter_xO_Z, <- Z.mul_assoc, <- Z.pow_add_r by lia. f_equal. f_equal. lia.
Qed.

(** The number of a safe integer is a binary64 number whose value is the
    integer. *)
Lemma number_of_Z_exact (z : Z) :
  safe_integer z = true ->
  valid_number (number_of_Z z) = true /\ is_nan (number_of_Z z) = false /\
  scaled (number_of_Z z) = z * 2 ^ 1074.
Proof.
  unfold safe_integer. intro H. apply Z.ltb_lt in H.
  unfold number_of_Z. destruct z as [|p|p]; cbn [binary_normalize].
  - repeat split.
  - destruct (binary_round_integer false p) as [mz [ez [E [He [Hd Hv]]]]]; [lia|].
    rewrite E. unfold valid_number. cbn [valid_binary is_nan scaled cond_Zopp].
    split; [|split; [reflexivity | exact Hv]].
    unfold bounded, canonical_mantissa. rewrite Hd.
    apply andb_true_iff. split; [apply Z.eqb_eq | apply Z.leb_le];
      unfold fexp, SpecFloat.emin, prec, emax; lia.
  - destruct (binary_round_integer true p) as [mz [ez [E [He [Hd Hv]]]]]; [lia|].
    rewrite E. unfold valid_number. cbn [valid_binary is_nan scaled cond_Zopp].
    split; [|split; [reflexivity | rewrite Hv; lia]].
    unfold bounded, canonical_mantissa. rewrite Hd.
    apply andb_true_iff. split; [apply Z.eqb_eq | apply Z.leb_le];
      unfold fexp, SpecFloat.emin, prec, emax; lia.
Qed.

(** X22: what the persistence effect writes, the next start of the page
    reads back: for every list of safe integers (the ids that
    [JSON.stringify] writes with all their digits), [JSON.parse] of
    [JSON.stringify] of the list does not throw and gives the array of
    the numbers of these ids in the same order, each of them a binary64
    number whose value is exactly the id; so [initFavorites] on the
    stored entry gives the favorites that were stored. *)
Theorem initFavorites_reads_back (ids : list Z) (st : Store) :
  (Forall (fun z => safe_integer z = true) ids ->
   JSON_parse (JSON_stringify ids) =
     Normal (JArray (map (fun z => JNumber (number_of_Z z)) ids)) /\
   initFavorites (Some (JSON_stringify ids)) =
     Normal (JArray (map (fun z => JNumber (number_of_Z z)) ids)) /\
   Forall (fun z => valid_number (number_of_Z z) = true /\
                    scaled (number_of_Z z) = z * 2 ^ 1074) ids) /\
  (effect_due st = true ->
   Forall (fun z => safe_integer z = true) (favorites st) ->
   initFavorites (movieFavorites (run_effects st)) =
     Normal (JArray (map (fun z => JNumber (number_of_Z z)) (favorites st)))).
Proof.
  assert (Hp : forall l, JSON_parse (JSON_stringify l) =
                 Normal (JArray (map (fun z => JNumber (number_of_Z z)) l))).
  { intro l. unfold JSON_parse.
    rewrite scan_JSON_stringify, parse_numeral_tokens. reflexivity. }
  assert (Hi : forall l, initFavorites (Some (JSON_stringify l)) =
                 Normal (JArray (map (fun z => JNumber (number_of_Z z)) l))).
  { intro l. unfold initFavorites.
    destruct (JSON_stringify l) eqn:E; [discriminate E|]. rewrite <- E. apply Hp. }
  split.
  - intro Hs. split; [apply Hp|]. split; [apply Hi|].
    eapply Forall_impl; [|exact Hs]. intros z Hz.
    destruct (number_of_Z_exact z Hz) as [Hv [_ Hx]]. split; assumption.
  - intros Hdue _. unfold run_effects. rewrite Hdue. cbn [movieFavorites]. apply Hi.
Qed.

Lemma initFavorites_reads_back_sample :
  (JSON_parse (JSON_stringify [12; -3; 0]) =
     Normal (JArray (map (fun z => JNumber (number_of_Z z)) [12; -3; 0])) /\
   initFavorites (Some (JSON_stringify [12; -3; 0])) =
     Normal (JArray (map (fun z => JNumber (number_of_Z z)) [12; -3; 0])) /\
   Forall (fun z => valid_number (number_of_Z z) = true /\
                    scaled (number_of_Z z) = z * 2 ^ 1074) [12; -3; 0]) /\
  initFavorites (movieFavorites (run_effects (render (toggleFavorite 5 (mount [2] None)))))
  = Normal (JArray (map (fun z => JNumber (number_of_Z z))
                        (favorites (render (toggleFavorite 5 (mount [2] None)))))).
Proof.
  split.
  - apply (proj1 (initFavorites_reads_back [12; -3; 0] (mount [] None))).
    repeat constructor.
  - apply (proj2 (initFavorites_reads_back []
                    (render (toggleFavorite 5 (mount [2] None))))).
    + reflexivity.
    + repeat constructor.
Defined.

(** ** The stars of a card *)

Example stars_dune :
  stars V8_max_length dune = Some (star ++ star ++ star ++ star)%string.
Proof. vm_compute. reflexivity. Qed.

Example stars_untitled : stars V8_max_length untitled = Some EmptyString.
Proof. reflexivity. Qed.

Example stars_panned : stars V8_max_length panned = None.
Proof. vm_compute. reflexivity. Qed.

Example stars_too_many :
  stars V8_max_length
    {| id := 6; title := "Epic"; description := None; genre := None;
       rating := Some (number_of_Z 1000000000); year := None; poster_url := None |}
  = None.
Proof. vm_compute. reflexivity. Qed.

Lemma code_units_star : code_units star = 1.
Proof. reflexivity. Qed.

(** The floor of a number is below zero exactly when the number is. *)
Lemma floor_integer_negative (x : number) :
  match floor_integer x with
  | Integer z => (z <? 0) = is_negative x
  | PlusInfinity => x = S754_infinity false
  | MinusInfinity => is_negative x = true
  end.
Proof.
  destruct x as [s | [|] | | [|] m e]; cbn [floor_integer]; try reflexivity.
  - change (is_negative (S754_finite true m e)) with true.
    apply Z.ltb_lt. destruct (Z.leb_spec 0 e) as [He | He]; cbn [cond_Zopp].
    + pose proof (pow2_positive e He). nia.
    + apply Z.div_lt_upper_bound; [apply pow2_positive; lia | lia].
  - change (is_negative (S754_finite false m e)) with false.
    apply Z.ltb_ge. destruct (Z.leb_spec 0 e) as [He | He]; cbn [cond_Zopp].
    + pose proof (pow2_positive e He). nia.
    + apply Z.div_pos; [lia | apply pow2_positive; lia].
Qed.

(** X23: the star line of a card throws a [RangeError] exactly when the
    rating, a missing one read as 0, is below zero, or is [Infinity], or
    has a floor above the longest string the host builds; in particular a
    negative rating always throws, and a finite rating from 0 up to that
    length gives a line of stars. *)
Theorem stars_range_error (String_max_length : Z) (movie : Movie) :
  stars String_max_length movie = None <->
  is_negative (effective_rating movie) = true \/
  effective_rating movie = S754_infinity false \/
  exists z, floor_integer (effective_rating movie) = Integer z /\
            String_max_length < z.
Proof.
  unfold stars, String_repeat. fold (effective_rating movie). rewrite code_units_star.
  pose proof (floor_integer_negative (effective_rating movie)) as Hf.
  destruct (floor_integer (effective_rating movie)) as [z | |] eqn:E.
  - rewrite Hf, Z.mul_1_r.
    destruct (is_negative (effective_rating movie)) eqn:En.
    + split; [left; reflexivity | reflexivity].
    + destruct (String_max_length <? z) eqn:El.
      * split; [|reflexivity]. intros _. right. right. exists z.
        split; [reflexivity | apply Z.ltb_lt, El].
      * split; [discriminate|]. intros [H | [H | [z' [Hz Hlt]]]].
        -- discriminate H.
        -- rewrite H in E. discriminate E.
        -- injection Hz as <-. apply Z.ltb_ge in El. lia.
  - split; [right; left; exact Hf | reflexivity].
  - split; [left; exact Hf | reflexivity].
Qed.

(** ** The search link of a card *)

Example handleWatchNow_sample :
  handleWatchNow "Cats & Dogs #2" =
  "https://www.google.com/search?q=Cats%20%26%20Dogs%20%232".
Proof. reflexivity. Qed.

Lemma hex_upper_cases (d : N) :
  (d < 16)%N ->
  In (hex_upper d)
     (list_ascii_of_string "0123456789ABCDEF") /\ hex_digit (hex_upper d) = Some d.
Proof.
  intro H.
  assert (C : (d = 0 \/ d = 1 \/ d = 2 \/ d = 3 \/ d = 4 \/ d = 5 \/ d = 6 \/ d = 7 \/
               d = 8 \/ d = 9 \/ d = 10 \/ d = 11 \/ d = 12 \/ d = 13 \/ d = 14 \/
               d = 15)%N) by lia.
  repeat (destruct C as [-> | C]); try subst d; split; try reflexivity; cbn; tauto.
Qed.

Lemma hex_upper_unreserved (d : N) : (d < 16)%N -> uri_unreserved (hex_upper d) = true.
Proof.
  intro H.
  assert (C : (d = 0 \/ d = 1 \/ d = 2 \/ d = 3 \/ d = 4 \/ d = 5 \/ d = 6 \/ d = 7 \/
               d = 8 \/ d = 9 \/ d = 10 \/ d = 11 \/ d = 12 \/ d = 13 \/ d = 14 \/
               d = 15)%N) by lia.
  repeat (destruct C as [-> | C]); try subst d; reflexivity.
Qed.

Lemma N_of_ascii_bound (c : ascii) : (N_of_ascii c < 256)%N.
Proof. destruct c as [[] [] [] [] [] [] [] []]; reflexivity. Qed.

Lemma encode_unit_chars (c x : ascii) :
  In x (list_ascii_of_string (encode_unit c)) ->
  uri_unreserved x = true \/ x = "%"%char.
Proof.
  unfold encode_unit. destruct (uri_unreserved c) eqn:E.
  - intros [<- | []]. left. exact E.
  - pose proof (N_of_ascii_bound c) as Hb.
    intros [<- | [<- | [<- | []]]]; [right; reflexivity | left | left];
      apply hex_upper_unreserved.
    + apply N.Div0.div_lt_upper_bound. lia.
    + apply N.mod_lt. lia.
Qed.

Lemma encodeURIComponent_chars (s : string) (x : ascii) :
  In x (list_ascii_of_string (encodeURIComponent s)) ->
  uri_unreserved x = true \/ x = "%"%char.
Proof.
  induction s as [|c s IH]; cbn [encodeURIComponent]; [intros []|].
  rewrite list_ascii_of_string_app, in_app_iff.
  intros [H | H]; [eapply encode_unit_chars, H | apply IH, H].
Qed.

(** X24: whatever the title, the text [encodeURIComponent] puts after
    ['?q='] consists of letters, digits, the marks [-_.!~*'()] and the
    percent sign only; in particular it holds no [&], [#], [=], [?], [/],
    [+] or space, so a title cannot end the query or add a parameter. *)
Theorem encodeURIComponent_safe (movieTitle : string) (x : ascii) :
  In x (list_ascii_of_string (encodeURIComponent movieTitle)) ->
  (uri_unreserved x = true \/ x = "%"%char) /\
  x <> "&"%char /\ x <> "#"%char /\ x <> "="%char /\ x <> "?"%char /\
  x <> "/"%char /\ x <> "+"%char /\ x <> " "%char.
Proof.
  intro H. apply encodeURIComponent_chars in H. split; [exact H|].
  repeat split; intros ->; destruct H as [H | H]; discriminate H.
Qed.

Lemma encodeURIComponent_safe_sample :
  (uri_unreserved "%"%char = true \/ "%"%char = "%"%char) /\
  "%"%char <> "&"%char /\ "%"%char <> "#"%char /\ "%"%char <> "="%char /\
  "%"%char <> "?"%char /\ "%"%char <> "/"%char /\ "%"%char <> "+"%char /\
  "%"%char <> " "%char.
Proof.
  apply (encodeURIComponent_safe "& Dogs" "%"%char).
  vm_compute. left. reflexivity.
Defined.

Lemma percent_byte_inj (c1 c2 : ascii) :
  percent_byte c1 = percent_byte c2 -> c1 = c2.
Proof.
  unfold percent_byte. intro H. injection H as Hh Hl.
  pose proof (N_of_ascii_bound c1) as B1. pose proof (N_of_ascii_bound c2) as B2.
  assert (H1 : (N_of_ascii c1 / 16 < 16)%N) by (apply N.Div0.div_lt_upper_bound; lia).
  assert (H2 : (N_of_ascii c2 / 16 < 16)%N) by (apply N.Div0.div_lt_upper_bound; lia).
  assert (L1 : (N_of_ascii c1 mod 16 < 16)%N) by (apply N.mod_lt; lia).
  assert (L2 : (N_of_ascii c2 mod 16 < 16)%N) by (apply N.mod_lt; lia).
  apply (f_equal hex_digit) in Hh, Hl.
  rewrite (proj2 (hex_upper_cases _ H1)), (proj2 (hex_upper_cases _ H2)) in Hh.
  rewrite (proj2 (hex_upper_cases _ L1)), (proj2 (hex_upper_cases _ L2)) in Hl.
  injection Hh as Hh. injection Hl as Hl.
  rewrite <- (ascii_N_embedding c1), <- (ascii_N_embedding c2). f_equal.
  rewrite (N.div_mod (N_of_ascii c1) 16), (N.div_mod (N_of_ascii c2) 16) by lia.
  rewrite Hh, Hl. reflexivity.
Qed.

Lemma encode_unit_app_inj (c1 c2 : ascii) (r1 r2 : string) :
  (encode_unit c1 ++ r1)%string = (encode_unit c2 ++ r2)%string ->
  c1 = c2 /\ r1 = r2.
Proof.
  unfold encode_unit.
  destruct (uri_unreserved c1) eqn:E1; destruct (uri_unreserved c2) eqn:E2;
    cbn [percent_byte append]; intro H.
  - injection H as -> ->. split; reflexivity.
  - injection H as -> _. discriminate E1.
  - injection H as <- _. discriminate E2.
  - injection H as Hh Hl Hr.
    split; [|exact Hr]. apply percent_byte_inj. unfold percent_byte.
    rewrite Hh, Hl. reflexivity.
Qed.

(** X25: [encodeURIComponent] loses nothing: two titles with the same
    encoding are the same title, so different titles open different
    searches. *)
Theorem encodeURIComponent_injective (t1 t2 : string) :
  handleWatchNow t1 = handleWatchNow t2 -> t1 = t2.
Proof.
  unfold handleWatchNow. intro H.
  assert (E : encodeURIComponent t1 = encodeURIComponent t2).
  { cbn [append] in H. repeat (injection H as H). exact H. }
  clear H. revert t2 E. induction t1 as [|c1 t1 IH]; intros [|c2 t2] E.
  - reflexivity.
  - cbn [encodeURIComponent] in E. unfold encode_unit in E.
    destruct (uri_unreserved c2); discriminate E.
  - cbn [encodeURIComponent] in E. unfold encode_unit in E.
    destruct (uri_unreserved c1); discriminate E.
  - cbn [encodeURIComponent] in E. apply encode_unit_app_inj in E.
    destruct E as [-> E]. f_equal. apply IH, E.
Qed.

Lemma encodeURIComponent_injective_sample : "Dune" = "Dune".
Proof.
  apply (encodeURIComponent_injective "Dune" "Dune"). reflexivity.
Defined.
